(** * CRM Contacts API: a shallow embedding of [main.py]

    The service is a FastAPI application over one SQLite table.  The
    embedding follows the source closely:

    - the table [contacts] is a finite map from rowid to the five other
      columns, together with the AUTOINCREMENT counter kept by the engine
      in [sqlite_sequence];
    - Python tuples returned by a cursor are lists of SQL values, so that
      [existing[2]] and [fetchone()[0]] read as they do in the source;
    - the SQL text assembled by [get_contacts] is an expression tree whose
      [?] placeholders are bound positionally to the parameter list, the
      way [conn.execute(query, params)] binds them;
    - a handler runs in a small state-and-exception monad over a [world]
      holding the committed table, the working copy of the open
      connection and the journal of statements sent to the engine;
    - the declarative [Query(...)] and [Path(...)] constraints of the
      handler signatures are checked first, as the framework does before
      it calls the function body.

    Text is a sequence of 8-bit characters; [LOWER] and [LIKE] fold the
    ASCII letters only, which is what the storage engine does.  Values of
    [ContactBase] are request bodies that passed Pydantic validation.
    The 64-bit ceiling of rowids is outside the model: ids are unbounded
    integers as Python has them. *)

From Stdlib Require Import ZArith String Ascii List Bool Lia.
From stdpp Require Import gmap strings list fin_maps pretty.

Local Open Scope string_scope.
Local Open Scope Z_scope.

(** ** SQL values and text functions *)

Inductive sqlval :=
| NULL
| INTEGER (z : Z)
| TEXT (s : string).

#[global] Instance sqlval_eq_dec : EqDecision sqlval.
Proof. solve_decision. Defined.

(** [sqlite3Tolower]: only the 26 ASCII capitals are folded. *)
Definition lower_ascii (c : ascii) : ascii :=
  let n := N_of_ascii c in
  if ((65 <=? n) && (n <=? 90))%N then ascii_of_N (n + 32) else c.

Fixpoint lower (s : string) : string :=
  match s with
  | EmptyString => EmptyString
  | String c s' => String (lower_ascii c) (lower s')
  end.

Definition is_percent (c : ascii) : bool := Ascii.eqb c "%"%char.
Definition is_underscore (c : ascii) : bool := Ascii.eqb c "_"%char.

(** [text LIKE pattern] without an ESCAPE clause: [%] matches any run of
    characters, [_] matches one character, every other character
    matches itself up to ASCII case. *)
Fixpoint like (pattern text : string) : bool :=
  match pattern with
  | EmptyString =>
      match text with EmptyString => true | String _ _ => false end
  | String c p' =>
      if is_percent c then
        (fix star (t : string) : bool :=
           like p' t ||
           match t with
           | EmptyString => false
           | String _ t' => star t'
           end) text
      else
        match text with
        | EmptyString => false
        | String d t' =>
            (is_underscore c || Ascii.eqb (lower_ascii c) (lower_ascii d))
            && like p' t'
        end
  end.

(** The text of a value, as the engine casts it for a text function. *)
Definition text_of (v : sqlval) : option string :=
  match v with
  | NULL => None
  | INTEGER z => Some (pretty z)
  | TEXT s => Some s
  end.

Definition sql_bool (b : bool) : sqlval := INTEGER (if b then 1 else 0).

Definition sql_lower (v : sqlval) : sqlval :=
  match text_of v with
  | None => NULL
  | Some s => TEXT (lower s)
  end.

(** [a = b]: NULL if either operand is NULL.  The program binds integers
    only against [id] and text only against text columns, so values of
    different storage classes are simply unequal here. *)
Definition sql_eq (a b : sqlval) : sqlval :=
  match a, b with
  | NULL, _ | _, NULL => NULL
  | _, _ => sql_bool (bool_decide (a = b))
  end.

Definition sql_like (text pattern : sqlval) : sqlval :=
  match text_of text, text_of pattern with
  | Some t, Some p => sql_bool (like p t)
  | _, _ => NULL
  end.

(** Three-valued truth of a value used as a condition. *)
Definition truth (v : sqlval) : option bool :=
  match v with
  | NULL => None
  | INTEGER z => Some (negb (z =? 0))
  | TEXT _ => Some false
  end.

Definition sql_of_truth (t : option bool) : sqlval :=
  match t with
  | None => NULL
  | Some b => sql_bool b
  end.

Definition sql_and (a b : sqlval) : sqlval :=
  sql_of_truth
    match truth a, truth b with
    | Some false, _ | _, Some false => Some false
    | Some true, Some true => Some true
    | _, _ => None
    end.

Definition sql_or (a b : sqlval) : sqlval :=
  sql_of_truth
    match truth a, truth b with
    | Some true, _ | _, Some true => Some true
    | Some false, Some false => Some false
    | _, _ => None
    end.

(** A row passes WHERE when the condition is true (not false, not NULL). *)
Definition passes (v : sqlval) : bool :=
  match truth v with
  | Some true => true
  | _ => false
  end.

(** ** The table *)

Inductive column := ID | NAME | EMAIL | PHONE | COMPANY | CREATED_AT.

(** The columns of one row other than its rowid [id]. *)
Record cells := {
  c_name : string;
  c_email : string;
  c_phone : option string;
  c_company : option string;
  c_created_at : string
}.

Definition nullable (o : option string) : sqlval :=
  match o with
  | None => NULL
  | Some s => TEXT s
  end.

(** A fetched row (a Python tuple), in [SELECT *] column order. *)
Definition tuple_of (kv : Z * cells) : list sqlval :=
  [ INTEGER kv.1; TEXT (c_name kv.2); TEXT (c_email kv.2);
    nullable (c_phone kv.2); nullable (c_company kv.2);
    TEXT (c_created_at kv.2) ].

Definition column_value (c : column) (kv : Z * cells) : sqlval :=
  match c with
  | ID => INTEGER kv.1
  | NAME => TEXT (c_name kv.2)
  | EMAIL => TEXT (c_email kv.2)
  | PHONE => nullable (c_phone kv.2)
  | COMPANY => nullable (c_company kv.2)
  | CREATED_AT => TEXT (c_created_at kv.2)
  end.

Record database := {
  contacts : gmap Z cells;
  sqlite_sequence : Z
}.

(** [init_db] on a fresh file: the table exists and is empty. *)
Definition init_db : database :=
  {| contacts := ∅; sqlite_sequence := 0 |}.

(** ** Expressions with positional parameters *)

Inductive expr :=
| Lit (v : sqlval)
| Col (c : column)
| Param
| Lower (e : expr)
| Eq (a b : expr)
| Like (a b : expr)
| And (a b : expr)
| Or (a b : expr).

(** Evaluation consumes the parameters left to right, in the order of
    the [?] marks in the text; [None] when the list is too short. *)
Fixpoint eval (e : expr) (kv : Z * cells) (params : list sqlval)
  : option (sqlval * list sqlval) :=
  let binary op a b :=
    match eval a kv params with
    | None => None
    | Some (va, rest) =>
        match eval b kv rest with
        | None => None
        | Some (vb, rest') => Some (op va vb, rest')
        end
    end in
  match e with
  | Lit v => Some (v, params)
  | Col c => Some (column_value c kv, params)
  | Param =>
      match params with
      | [] => None
      | v :: rest => Some (v, rest)
      end
  | Lower a =>
      match eval a kv params with
      | None => None
      | Some (v, rest) => Some (sql_lower v, rest)
      end
  | Eq a b => binary sql_eq a b
  | Like a b => binary sql_like a b
  | And a b => binary sql_and a b
  | Or a b => binary sql_or a b
  end.

(** Number of [?] marks of an expression. *)
Fixpoint arity (e : expr) : nat :=
  match e with
  | Lit _ | Col _ => 0
  | Param => 1
  | Lower a => arity a
  | Eq a b | Like a b | And a b | Or a b => arity a + arity b
  end.

(** ** Scanning, ordering and windowing *)

Inductive direction := ASC | DESC.

(** The order of values under ORDER BY: NULL first, then integers by
    value, then text by its bytes (the BINARY collation). *)
Definition sql_le (a b : sqlval) : bool :=
  match a, b with
  | NULL, _ => true
  | _, NULL => false
  | INTEGER x, INTEGER y => x <=? y
  | INTEGER _, TEXT _ => true
  | TEXT _, INTEGER _ => false
  | TEXT s, TEXT t => String.leb s t
  end.

Fixpoint insert_by {A} (le : A → A → bool) (x : A) (l : list A) : list A :=
  match l with
  | [] => [x]
  | y :: l' => if le x y then x :: l else y :: insert_by le x l'
  end.

(** A stable sort: rows with equal keys keep the order of the scan. *)
Definition sort_by {A} (le : A → A → bool) (l : list A) : list A :=
  foldr (insert_by le) [] l.

(** A full table scan visits the rows in rowid order. *)
Definition table_scan (tbl : gmap Z cells) : list (Z * cells) :=
  sort_by (λ a b, a.1 <=? b.1) (map_to_list tbl).

Definition order_rows (c : column) (d : direction) (rows : list (Z * cells))
  : list (Z * cells) :=
  match d with
  | ASC => sort_by (λ a b, sql_le (column_value c a) (column_value c b)) rows
  | DESC => sort_by (λ a b, sql_le (column_value c b) (column_value c a)) rows
  end.

(** [LIMIT l OFFSET o]: a negative limit means no limit. *)
Definition limit_offset {A} (l o : Z) (rows : list A) : list A :=
  let rest := drop (Z.to_nat o) rows in
  if l <? 0 then rest else take (Z.to_nat l) rest.

(** The rows of a scan that pass [WHERE w] under the bound parameters. *)
Definition row_passes (w : expr) (params : list sqlval) (kv : Z * cells) : bool :=
  match eval w kv params with
  | Some (v, _) => passes v
  | None => false
  end.

Definition where_rows (w : expr) (params : list sqlval) (tbl : gmap Z cells)
  : list (Z * cells) :=
  List.filter (row_passes w params) (table_scan tbl).

(** The largest rowid in use, 0 for an empty table; AUTOINCREMENT takes
    one more than the larger of it and the counter of [sqlite_sequence]. *)
Definition max_rowid (tbl : gmap Z cells) : Z :=
  foldr Z.max 0 (map_to_list tbl).*1.

(** The UNIQUE index on [email]: does a row other than [except] hold [e]? *)
Definition email_in_use (e : string) (except : option Z) (tbl : gmap Z cells) : bool :=
  existsb (λ kv, bool_decide (c_email kv.2 = e) && negb (bool_decide (Some kv.1 = except)))
          (map_to_list tbl).

(** ** Statements *)

Inductive projection := STAR | ONE | COUNT_STAR.

Inductive statement :=
| SELECT (what : projection) (where_ : expr) (order_by : option (column * direction))
    (** [SELECT what FROM contacts WHERE where_], followed when [order_by]
        is given by [ORDER BY c d LIMIT ? OFFSET ?]; [COUNT_STAR] is
        [SELECT COUNT( * ) FROM (SELECT * FROM contacts WHERE where_)] *)
| INSERT
    (** [INSERT INTO contacts (name, email, phone, company) VALUES (?, ?, ?, ?)] *)
| UPDATE
    (** [UPDATE contacts SET name=?, email=?, phone=?, company=? WHERE id=?] *)
| DELETE.
    (** [DELETE FROM contacts WHERE id = ?] *)

Definition bindings (s : statement) : nat :=
  match s with
  | SELECT _ w None => arity w
  | SELECT _ w (Some _) => arity w + 2
  | INSERT => 4
  | UPDATE => 5
  | DELETE => 1
  end.

Record cursor := {
  rows : list (list sqlval);
  lastrowid : option Z
}.

Definition fetchall (cur : cursor) : list (list sqlval) := rows cur.
Definition fetchone (cur : cursor) : option (list sqlval) := head (rows cur).

Inductive exn :=
| RequestValidationError
| HTTPException (status_code : Z) (detail : string)
| IntegrityError
| ProgrammingError
| OperationalError
| TypeError
| ValidationError.

Inductive result (A : Type) :=
| Ok (a : A)
| Raise (e : exn).
Arguments Ok {A} a.
Arguments Raise {A} e.

Definition project (what : projection) (selected : list (Z * cells))
  : list (list sqlval) :=
  match what with
  | STAR => tuple_of <$> selected
  | ONE => (λ _, [INTEGER 1]) <$> selected
  | COUNT_STAR => [[INTEGER (Z.of_nat (length selected))]]
  end.

Definition run_select (what : projection) (w : expr)
    (order_by : option (column * direction)) (params : list sqlval)
    (tbl : gmap Z cells) : result cursor :=
  let matching := where_rows w params tbl in
  match order_by with
  | None => Ok {| rows := project what matching; lastrowid := None |}
  | Some (c, d) =>
      match drop (arity w) params with
      | [INTEGER l; INTEGER o] =>
          Ok {| rows := project what (limit_offset l o (order_rows c d matching));
                lastrowid := None |}
      | _ => Raise IntegrityError
      end
  end.

(** The effect of one statement on the table: the cursor and the new
    table, or the exception with the table as it was. *)
Definition run (now : string) (s : statement) (params : list sqlval)
    (db : database) : result cursor * database :=
  if negb (length params =? bindings s)%nat then (Raise ProgrammingError, db) else
  match s with
  | SELECT what w order_by => (run_select what w order_by params (contacts db), db)
  | INSERT =>
      match params with
      | [vname; vemail; vphone; vcompany] =>
          match text_of vname, text_of vemail with
          | Some n, Some e =>
              if email_in_use e None (contacts db) then (Raise IntegrityError, db)
              else
                let rowid := Z.max (sqlite_sequence db) (max_rowid (contacts db)) + 1 in
                let c := {| c_name := n; c_email := e; c_phone := text_of vphone;
                            c_company := text_of vcompany; c_created_at := now |} in
                (Ok {| rows := []; lastrowid := Some rowid |},
                 {| contacts := <[rowid := c]> (contacts db);
                    sqlite_sequence := rowid |})
          | _, _ => (Raise IntegrityError, db)
          end
      | _ => (Raise ProgrammingError, db)
      end
  | UPDATE =>
      match params with
      | [vname; vemail; vphone; vcompany; INTEGER k] =>
          match contacts db !! k with
          | None => (Ok {| rows := []; lastrowid := None |}, db)
          | Some old =>
              match text_of vname, text_of vemail with
              | Some n, Some e =>
                  if email_in_use e (Some k) (contacts db) then (Raise IntegrityError, db)
                  else
                    let c := {| c_name := n; c_email := e; c_phone := text_of vphone;
                                c_company := text_of vcompany;
                                c_created_at := c_created_at old |} in
                    (Ok {| rows := []; lastrowid := None |},
                     {| contacts := <[k := c]> (contacts db);
                        sqlite_sequence := sqlite_sequence db |})
              | _, _ => (Raise IntegrityError, db)
              end
          end
      | _ => (Ok {| rows := []; lastrowid := None |}, db)
      end
  | DELETE =>
      match params with
      | [INTEGER k] =>
          (Ok {| rows := []; lastrowid := None |},
           {| contacts := delete k (contacts db);
              sqlite_sequence := sqlite_sequence db |})
      | _ => (Ok {| rows := []; lastrowid := None |}, db)
      end
  end.

(** ** The handler monad *)

(** What a request handler sees: the clock of the engine, the table as
    committed on disk, the working copy of the current connection, and
    every statement handed to [conn.execute] so far with its bindings. *)
Record world := {
  clock : string;
  disk : database;
  working : database;
  journal : list (statement * list sqlval)
}.

Definition M (A : Type) : Type := world → result A * world.

Definition ret {A} (a : A) : M A := λ w, (Ok a, w).

Definition raise {A} (e : exn) : M A := λ w, (Raise e, w).

Definition bind {A B} (m : M A) (k : A → M B) : M B :=
  λ w, match m w with
       | (Ok a, w') => k a w'
       | (Raise e, w') => (Raise e, w')
       end.

Notation "x <- m ;; k" := (bind m (λ x, k))
  (at level 100, m at next level, right associativity).
Notation "m ;; k" := (bind m (λ _, k))
  (at level 100, right associativity).

Definition lift {A} (r : result A) : M A := λ w, (r, w).

(** [try: body except sqlite3.IntegrityError: handler] *)
Definition try_except_IntegrityError {A} (body handler : M A) : M A :=
  λ w, match body w with
       | (Raise IntegrityError, w') => handler w'
       | other => other
       end.

(** [conn.execute(sql, params)] *)
Definition execute (s : statement) (params : list sqlval) : M cursor :=
  λ w, let '(r, db') := run (clock w) s params (working w) in
       (r, {| clock := clock w; disk := disk w; working := db';
              journal := (journal w ++ [(s, params)])%list |}).

(** [conn.commit()] *)
Definition commit : M unit :=
  λ w, (Ok tt, {| clock := clock w; disk := working w; working := working w;
                  journal := journal w |}).

(** [with sqlite3.connect(DB_PATH) as conn: body]: a fresh connection
    sees the committed table; leaving the block commits, leaving it by
    an exception rolls back whatever was not committed. *)
Definition with_connection {A} (body : M A) : M A :=
  λ w, match body {| clock := clock w; disk := disk w; working := disk w;
                     journal := journal w |} with
       | (Ok a, w') =>
           (Ok a, {| clock := clock w'; disk := working w'; working := working w';
                     journal := journal w' |})
       | (Raise e, w') =>
           (Raise e, {| clock := clock w'; disk := disk w'; working := disk w';
                        journal := journal w' |})
       end.

(** A [Query(...)] or [Path(...)] constraint of a handler signature. *)
Definition constraint (ok : bool) : M unit :=
  if ok then ret tt else raise RequestValidationError.

(** ** Pydantic models *)

Record ContactBase := {
  name : string;
  email : string;
  phone : option string;
  company : option string
}.

Definition ContactCreate := ContactBase.
Definition ContactUpdate := ContactBase.

Record Contact := {
  base :> ContactBase;
  id : Z;
  created_at : string
}.

Record ContactListResponse := {
  data : list Contact;
  count : Z;
  limit : Z;
  offset : Z
}.

Definition optional_str (v : sqlval) : result (option string) :=
  match v with
  | NULL => Ok None
  | TEXT s => Ok (Some s)
  | INTEGER _ => Raise ValidationError
  end.

(** [row[i]] on what [fetchone] returned. *)
Definition item (row : option (list sqlval)) (i : nat) : result sqlval :=
  match row with
  | None => Raise TypeError
  | Some t =>
      match t !! i with
      | Some v => Ok v
      | None => Raise TypeError
      end
  end.

Definition row_to_contact (row : option (list sqlval)) : result Contact :=
  match row with
  | None => Raise TypeError
  | Some [INTEGER i; TEXT n; TEXT e; p; c; TEXT t] =>
      match optional_str p, optional_str c with
      | Ok p', Ok c' =>
          Ok {| base := {| name := n; email := e; phone := p'; company := c' |};
                id := i; created_at := t |}
      | _, _ => Raise ValidationError
      end
  | Some _ => Raise ValidationError
  end.

Fixpoint rows_to_contacts (rs : list (list sqlval)) : result (list Contact) :=
  match rs with
  | [] => Ok []
  | r :: rs' =>
      match row_to_contact (Some r) with
      | Raise e => Raise e
      | Ok c =>
          match rows_to_contacts rs' with
          | Raise e => Raise e
          | Ok cs => Ok (c :: cs)
          end
      end
  end.

Definition as_int (v : sqlval) : result Z :=
  match v with
  | INTEGER n => Ok n
  | _ => Raise ValidationError
  end.

(** ** The handlers *)

Definition upper_ascii (c : ascii) : ascii :=
  let n := N_of_ascii c in
  if ((97 <=? n) && (n <=? 122))%N then ascii_of_N (n - 32) else c.

(** [str.upper()] *)
Fixpoint upper (s : string) : string :=
  match s with
  | EmptyString => EmptyString
  | String c s' => String (upper_ascii c) (upper s')
  end.

(** A [pattern="^(a|b|c)$"] constraint: the value is one of the words. *)
Definition fullmatch (alternatives : list string) (s : string) : bool :=
  existsb (String.eqb s) alternatives.

(** Truthiness of an [Optional[str]]: [None] and [""] are false. *)
Definition truthy (o : option string) : option string :=
  match o with
  | Some EmptyString => None
  | other => other
  end.

(** The reading of [ORDER BY {sort_by} {order.upper()}] by the engine. *)
Definition order_term (sort_by order : string) : option (column * direction) :=
  let col :=
    if String.eqb sort_by "name" then Some NAME
    else if String.eqb sort_by "company" then Some COMPANY
    else if String.eqb sort_by "id" then Some ID
    else None in
  let dir :=
    if String.eqb order "ASC" then Some ASC
    else if String.eqb order "DESC" then Some DESC
    else None in
  match col, dir with
  | Some c, Some d => Some (c, d)
  | _, _ => None
  end.

(** The text and bindings of the filter, as lines 87-97 assemble them. *)
Definition build_query (company search : option string) : expr * list sqlval :=
  let query := Eq (Lit (INTEGER 1)) (Lit (INTEGER 1)) in
  let params : list sqlval := [] in
  let '(query, params) :=
    match truthy company with
    | Some company =>
        (And query (Eq (Lower (Col COMPANY)) (Lower Param)),
         (params ++ [TEXT company])%list)
    | None => (query, params)
    end in
  match truthy search with
  | Some search =>
      let wildcard := "%" +:+ search +:+ "%" in
      (And query (Or (Like (Lower (Col NAME)) (Lower Param))
                     (Like (Lower (Col EMAIL)) (Lower Param))),
       (params ++ [TEXT wildcard; TEXT wildcard])%list)
  | None => (query, params)
  end.

(** [GET /contacts]; an omitted query parameter is [None] and takes the
    default of the signature. *)
Definition get_contacts (company search : option string)
    (limit offset : option Z) (sort_by order : option string)
  : M ContactListResponse :=
  let limit := default 10 limit in
  let offset := default 0 offset in
  let sort_by := default "id" sort_by in
  let order := default "asc" order in
  constraint ((1 <=? limit) && (limit <=? 50)) ;;
  constraint (0 <=? offset) ;;
  constraint (fullmatch ["name"; "company"; "id"] sort_by) ;;
  constraint (fullmatch ["asc"; "desc"] order) ;;
  let '(query, params) := build_query company search in
  total <- with_connection
             (cur <- execute (SELECT COUNT_STAR query None) params ;;
              lift (item (fetchone cur) 0)) ;;
  let params := (params ++ [INTEGER limit; INTEGER offset])%list in
  contacts <- with_connection
                (match order_term sort_by (upper order) with
                 | None => raise OperationalError
                 | Some by_ =>
                     cur <- execute (SELECT STAR query (Some by_)) params ;;
                     lift (rows_to_contacts (fetchall cur))
                 end) ;;
  total <- lift (as_int total) ;;
  ret {| data := contacts; count := total; limit := limit; offset := offset |}.

Definition by_id : expr := Eq (Col ID) Param.
Definition by_email : expr := Eq (Col EMAIL) Param.

(** [GET /contacts/{id}] *)
Definition get_contact (id : Z) : M Contact :=
  constraint (0 <? id) ;;
  row <- with_connection
           (cur <- execute (SELECT STAR by_id None) [INTEGER id] ;;
            ret (fetchone cur)) ;;
  match row with
  | None => raise (HTTPException 404 "Contact not found")
  | Some _ => lift (row_to_contact row)
  end.

Definition rowid_value (i : option Z) : sqlval :=
  match i with
  | Some k => INTEGER k
  | None => NULL
  end.

(** [POST /contacts] *)
Definition create_contact (contact : ContactCreate) : M Contact :=
  with_connection
    (new_id <- try_except_IntegrityError
                 (cursor <- execute INSERT
                              [TEXT (name contact); TEXT (email contact);
                               nullable (phone contact); nullable (company contact)] ;;
                  commit ;;
                  ret (lastrowid cursor))
                 (raise (HTTPException 409 "Email already exists")) ;;
     cur <- execute (SELECT STAR by_id None) [rowid_value new_id] ;;
     lift (row_to_contact (fetchone cur))).

(** [PUT /contacts/{id}] *)
Definition update_contact (contact : ContactUpdate) (id : Z) : M Contact :=
  constraint (0 <? id) ;;
  with_connection
    (cur <- execute (SELECT STAR by_id None) [INTEGER id] ;;
     match fetchone cur with
     | None => raise (HTTPException 404 "Contact not found")
     | Some _ =>
         existing_2 <- lift (item (fetchone cur) 2) ;;
         (if bool_decide (TEXT (email contact) ≠ existing_2) then
            cur <- execute (SELECT ONE by_email None) [TEXT (email contact)] ;;
            match fetchone cur with
            | Some _ => raise (HTTPException 409 "Email already exists")
            | None => ret tt
            end
          else ret tt) ;;
         execute UPDATE
           [TEXT (name contact); TEXT (email contact);
            nullable (phone contact); nullable (company contact); INTEGER id] ;;
         commit ;;
         cur <- execute (SELECT STAR by_id None) [INTEGER id] ;;
         lift (row_to_contact (fetchone cur))
     end).

(** [DELETE /contacts/{id}] *)
Definition delete_contact (id : Z) : M unit :=
  constraint (0 <? id) ;;
  with_connection
    (cur <- execute (SELECT ONE by_id None) [INTEGER id] ;;
     match fetchone cur with
     | None => raise (HTTPException 404 "Contact not found")
     | Some _ =>
         execute DELETE [INTEGER id] ;;
         commit
     end) ;;
  ret tt.

(** ** Responses *)

Definition status_code_of (e : exn) : Z :=
  match e with
  | RequestValidationError => 422
  | HTTPException c _ => c
  | _ => 500
  end.

Inductive error_kind := InvalidParameter | NotFound | Conflict | Internal.

Definition kind_of (e : exn) : error_kind :=
  let c := status_code_of e in
  if c =? 422 then InvalidParameter
  else if c =? 404 then NotFound
  else if c =? 409 then Conflict
  else Internal.

(** A service at rest: no connection is open. *)
Definition at_rest (now : string) (db : database) : world :=
  {| clock := now; disk := db; working := db; journal := [] |}.

(** * Specification vocabulary *)

(** ** Invariants *)

(** No two contacts of the table share a byte-identical email. *)
Definition emails_unique (tbl : gmap Z cells) : Prop :=
  ∀ i j a b, tbl !! i = Some a → tbl !! j = Some b → c_email a = c_email b → i = j.

(** A small Hoare logic for handlers: [hoare P m Q] when [m], started in
    a world satisfying [P], ends (normally or by an exception) in a
    world satisfying [Q]. *)
Definition hoare {A} (P : world → Prop) (m : M A) (Q : world → Prop) : Prop :=
  ∀ w, P w → Q (m w).2.

(** Both copies of the table that a connection sees keep the constraint. *)
Definition connection_inv (w : world) : Prop :=
  emails_unique (contacts (disk w)) ∧ emails_unique (contacts (working w)).

(** The committed table keeps the constraint. *)
Definition store_inv (w : world) : Prop := emails_unique (contacts (disk w)).

(** The world after [conn.execute(s, params)] left the working table [db]. *)
Definition logged (w : world) (db : database) (s : statement) (params : list sqlval)
  : world :=
  {| clock := clock w; disk := disk w; working := db;
     journal := (journal w ++ [(s, params)])%list |}.

(** The two exceptions the handlers raise themselves. *)
Definition not_found : exn := HTTPException 404 "Contact not found".
Definition conflict : exn := HTTPException 409 "Email already exists".

(** The row written by INSERT and by UPDATE from a request body. *)
Definition cells_of (contact : ContactBase) (stamp : string) : cells :=
  {| c_name := name contact; c_email := email contact; c_phone := phone contact;
     c_company := company contact; c_created_at := stamp |}.

(** The bindings of the four [?] marks that a request body fills. *)
Definition body_params (contact : ContactBase) : list sqlval :=
  [TEXT (name contact); TEXT (email contact);
   nullable (phone contact); nullable (company contact)].

(** The world a handler leaves behind: the connection is closed on the
    table [db], and [sent] was handed to the engine. *)
Definition closed (w : world) (db : database) (sent : list (statement * list sqlval))
  : world :=
  {| clock := clock w; disk := db; working := db;
     journal := (journal w ++ sent)%list |}.

(** The fixed statements of the handlers, with their bindings. *)
Definition select_by_id (k : Z) : statement * list sqlval :=
  (SELECT STAR by_id None, [INTEGER k]).

Definition select_1_by_email (e : string) : statement * list sqlval :=
  (SELECT ONE by_email None, [TEXT e]).

Definition update_with (contact : ContactBase) (k : Z) : statement * list sqlval :=
  (UPDATE, (body_params contact ++ [INTEGER k])%list).

(** ** The list filter, row by row *)

(** [LOWER(company) = LOWER(?)], when a company is given. *)
Definition company_matches (company : option string) (c : cells) : bool :=
  match truthy company with
  | None => true
  | Some f =>
      match c_company c with
      | Some x => bool_decide (lower x = lower f)
      | None => false
      end
  end.

(** [LOWER(name) LIKE LOWER(?) OR LOWER(email) LIKE LOWER(?)] under the
    wildcard pattern, when a search string is given. *)
Definition search_matches (search : option string) (c : cells) : bool :=
  match truthy search with
  | None => true
  | Some s =>
      let pattern := lower ("%" +:+ s +:+ "%") in
      like pattern (lower (c_name c)) || like pattern (lower (c_email c))
  end.

(** The conjunction of the company and the search predicate. *)
Definition selected (company search : option string) (kv : Z * cells) : bool :=
  company_matches company kv.2 && search_matches search kv.2.

(** The contact that [row_to_contact] builds from a stored row. *)
Definition contact_of (kv : Z * cells) : Contact :=
  {| base := {| name := c_name kv.2; email := c_email kv.2;
                phone := c_phone kv.2; company := c_company kv.2 |};
     id := kv.1; created_at := c_created_at kv.2 |}.

(** The [Query(...)] constraints of [get_contacts], defaults applied. *)
Definition valid_list_request (limit offset : option Z) (sort_by order : option string)
  : Prop :=
  1 ≤ default 10 limit ≤ 50 ∧ 0 ≤ default 0 offset ∧
  default "id" sort_by ∈ ["name"; "company"; "id"] ∧
  default "asc" order ∈ ["asc"; "desc"].



(** ** Reachable states *)

(** The worlds a service started on a fresh database can be in between
    two requests; the clock moves freely. *)
Inductive reachable : world → Prop :=
| reachable_init now : reachable (at_rest now init_db)
| reachable_tick w now :
    reachable w →
    reachable {| clock := now; disk := disk w; working := working w;
                 journal := journal w |}
| reachable_create w contact : reachable w → reachable (create_contact contact w).2
| reachable_update w contact id :
    reachable w → reachable (update_contact contact id w).2
| reachable_delete w id : reachable w → reachable (delete_contact id w).2.

(** ** Sample data *)

Definition ada : ContactBase :=
  {| name := "Ada Lovelace"; email := "ada@example.com";
     phone := None; company := Some "Acme" |}.

Definition grace : ContactBase :=
  {| name := "Grace Hopper"; email := "grace@example.com";
     phone := Some "555-1234"; company := None |}.

(** A store holding Ada as contact 1 and Grace as contact 2. *)
Definition two_contacts : database :=
  {| contacts := <[2 := cells_of grace "2024-01-02 00:00:00"]>
                   (<[1 := cells_of ada "2024-01-01 00:00:00"]> ∅);
     sqlite_sequence := 2 |}.





Definition ada_moved : ContactBase :=
  {| name := "Ada King"; email := "ada@example.com";
     phone := Some "555-0000"; company := None |}.

Definition ada_as_grace : ContactBase :=
  {| name := "Ada Lovelace"; email := "grace@example.com";
     phone := None; company := Some "Acme" |}.

(** ** Further vocabulary *)

(** The AUTOINCREMENT counter is not negative, and every stored rowid is
    positive and not above it. *)
Definition rowids_bounded (db : database) : Prop :=
  0 ≤ sqlite_sequence db ∧
  ∀ k c, contacts db !! k = Some c → 0 < k ≤ sqlite_sequence db.


(** The value of a contact in a sort column. *)
Definition contact_key (c : column) (x : Contact) : sqlval :=
  match c with
  | ID => INTEGER (id x)
  | NAME => TEXT (name x)
  | EMAIL => TEXT (email x)
  | PHONE => nullable (phone x)
  | COMPANY => nullable (company x)
  | CREATED_AT => TEXT (created_at x)
  end.

(** [a] comes no later than [b] under [ORDER BY c d]. *)
Definition in_order (c : column) (d : direction) (a b : Contact) : Prop :=
  match d with
  | ASC => sql_le (contact_key c a) (contact_key c b) = true
  | DESC => sql_le (contact_key c b) (contact_key c a) = true
  end.


(** A journal entry that only reads. *)
Definition is_select (entry : statement * list sqlval) : Prop :=
  match entry.1 with
  | SELECT _ _ _ => True
  | _ => False
  end.

(** ** Further sample data *)

Definition alan : ContactBase :=
  {| name := "Alan Turing"; email := "alan@example.com";
     phone := None; company := Some "NPL" |}.

Definition alan_again : ContactBase :=
  {| name := "A. M. Turing"; email := "alan@example.com";
     phone := Some "555-1936"; company := None |}.

(** * Properties *)

(** ** Scans and point queries *)

Section scan.
Context {A : Type} (le : A → A → bool).

Lemma insert_by_Permutation x (l : list A) : insert_by le x l ≡ₚ x :: l.
Proof.
  induction l as [|y l IH]; simpl; [done|].
  destruct (le x y); [done|].
  rewrite IH. apply Permutation_swap.
Qed.

Lemma sort_by_Permutation (l : list A) : sort_by le l ≡ₚ l.
Proof.
  induction l as [|x l IH]; simpl; [done|].
  unfold sort_by in *. simpl. by rewrite insert_by_Permutation, IH.
Qed.
End scan.

Lemma table_scan_Permutation (tbl : gmap Z cells) :
  table_scan tbl ≡ₚ map_to_list tbl.
Proof. apply sort_by_Permutation. Qed.

Lemma elem_of_table_scan (tbl : gmap Z cells) k c :
  (k, c) ∈ table_scan tbl ↔ tbl !! k = Some c.
Proof. rewrite table_scan_Permutation. apply elem_of_map_to_list. Qed.

Lemma NoDup_fst_table_scan (tbl : gmap Z cells) : NoDup (table_scan tbl).*1.
Proof.
  rewrite table_scan_Permutation. apply NoDup_fst_map_to_list.
Qed.

(** A filter on the key of a list without repeated keys keeps at most
    the one row with that key. *)
Lemma filter_key_unique {V} (l : list (Z * V)) (p : Z * V → bool) k :
  NoDup l.*1 →
  (∀ kv, p kv = bool_decide (kv.1 = k)) →
  List.filter p l = match list_find (λ kv, kv.1 = k) l with
                    | Some (_, kv) => [kv]
                    | None => []
                    end.
Proof.
  intros Hnd Hp. induction l as [|[k' v] l IH]; [done|].
  inversion_clear Hnd as [|? ? Hnotin Hnd'].
  simpl. rewrite Hp. simpl. case_bool_decide as Hk.
  - subst k'. rewrite decide_True by done. simpl. f_equal.
    rewrite IH by done.
    destruct (list_find _ l) as [[i [k2 v2]]|] eqn:Hf; [|done].
    apply list_find_Some in Hf as (Hl & Hk2 & _). simpl in Hk2. subst k2.
    exfalso. apply Hnotin. apply list_elem_of_fmap.
    exists (k, v2). split; [done|]. eapply list_elem_of_lookup_2, Hl.
  - rewrite decide_False by done. rewrite IH by done.
    by destruct (list_find _ l) as [[i kv]|].
Qed.

Lemma row_passes_by_id k kv : row_passes by_id [INTEGER k] kv = bool_decide (kv.1 = k).
Proof.
  unfold row_passes, by_id. simpl. unfold passes, sql_bool. simpl.
  repeat case_bool_decide; simplify_eq; done.
Qed.

Lemma where_rows_by_id (tbl : gmap Z cells) k :
  where_rows by_id [INTEGER k] tbl =
  match tbl !! k with
  | Some c => [(k, c)]
  | None => []
  end.
Proof.
  unfold where_rows.
  rewrite (filter_key_unique _ _ k (NoDup_fst_table_scan tbl) (row_passes_by_id k)).
  destruct (list_find _ _) as [[i [k' c]]|] eqn:Hf.
  - apply list_find_Some in Hf as (Hl & Hk & _). simpl in Hk. subst k'.
    apply list_elem_of_lookup_2, elem_of_table_scan in Hl. by rewrite Hl.
  - destruct (tbl !! k) as [c|] eqn:Hk; [|done].
    apply elem_of_table_scan, list_elem_of_lookup in Hk as [i Hi].
    eapply list_find_None in Hf. rewrite Forall_forall in Hf.
    exfalso. eapply (Hf (k, c)); [|done].
    eapply list_elem_of_lookup_2, Hi.
Qed.

Lemma row_passes_by_email e kv :
  row_passes by_email [TEXT e] kv = bool_decide (c_email kv.2 = e).
Proof.
  unfold row_passes, by_email. simpl. unfold passes, sql_bool. simpl.
  repeat case_bool_decide; simplify_eq; done.
Qed.

Lemma email_in_use_true (tbl : gmap Z cells) e except :
  email_in_use e except tbl = true ↔
  ∃ k c, tbl !! k = Some c ∧ c_email c = e ∧ Some k ≠ except.
Proof.
  unfold email_in_use. rewrite existsb_exists. split.
  - intros ([k c] & Hin & Hp). apply list_elem_of_In, elem_of_map_to_list in Hin.
    apply andb_true_iff in Hp as [He Hk].
    apply bool_decide_eq_true in He. apply negb_true_iff, bool_decide_eq_false in Hk.
    by exists k, c.
  - intros (k & c & Hl & He & Hk). exists (k, c). split.
    + by apply list_elem_of_In, elem_of_map_to_list.
    + simpl. rewrite bool_decide_eq_true_2 by done.
      by rewrite bool_decide_eq_false_2.
Qed.

Lemma email_in_use_false (tbl : gmap Z cells) e except :
  email_in_use e except tbl = false ↔
  ∀ k c, tbl !! k = Some c → c_email c = e → Some k = except.
Proof.
  rewrite <-not_true_iff_false, email_in_use_true. split.
  - intros Hno k c Hl He. destruct (decide (Some k = except)); [done|].
    exfalso. apply Hno. by exists k, c.
  - intros Hall (k & c & Hl & He & Hk). by apply Hk, (Hall k c).
Qed.

Lemma where_rows_by_email_nil (tbl : gmap Z cells) e :
  where_rows by_email [TEXT e] tbl = [] ↔
  ∀ k c, tbl !! k = Some c → c_email c ≠ e.
Proof.
  unfold where_rows. split.
  - intros Hnil k c Hl He.
    assert ((k, c) ∈ List.filter (row_passes by_email [TEXT e]) (table_scan tbl)) as Hin.
    { apply list_elem_of_In, filter_In. split.
      - by apply list_elem_of_In, elem_of_table_scan.
      - rewrite row_passes_by_email. by apply bool_decide_eq_true. }
    rewrite Hnil in Hin. by apply not_elem_of_nil in Hin.
  - intros Hall.
    destruct (List.filter _ _) as [|[k c] l] eqn:Hf; [done|].
    assert (In (k, c) (List.filter (row_passes by_email [TEXT e]) (table_scan tbl))) as Hin
      by (rewrite Hf; by left).
    apply filter_In in Hin as [Hin Hp].
    apply list_elem_of_In, elem_of_table_scan in Hin.
    rewrite row_passes_by_email in Hp. apply bool_decide_eq_true in Hp.
    by destruct (Hall k c Hin).
Qed.

Lemma max_rowid_ge (tbl : gmap Z cells) k c :
  tbl !! k = Some c → k ≤ max_rowid tbl.
Proof.
  intros Hl. unfold max_rowid.
  assert (k ∈ (map_to_list tbl).*1) as Hin.
  { apply list_elem_of_fmap. exists (k, c). split; [done|]. by apply elem_of_map_to_list. }
  induction ((map_to_list tbl).*1) as [|x l IH]; [by apply not_elem_of_nil in Hin|].
  apply elem_of_cons in Hin as [->|Hin]; simpl; [lia|].
  specialize (IH Hin). lia.
Qed.

Lemma fresh_rowid (db : database) :
  contacts db !! (Z.max (sqlite_sequence db) (max_rowid (contacts db)) + 1) = None.
Proof.
  destruct (contacts db !! _) as [c|] eqn:Hl; [|done].
  apply max_rowid_ge in Hl. lia.
Qed.


(** ** Email uniqueness *)

Lemma emails_unique_empty : emails_unique ∅.
Proof. intros i j a b Hi. by rewrite lookup_empty in Hi. Qed.

Lemma emails_unique_delete tbl k : emails_unique tbl → emails_unique (delete k tbl).
Proof.
  intros Hu i j a b Hi Hj. apply lookup_delete_Some in Hi as [_ Hi].
  apply lookup_delete_Some in Hj as [_ Hj]. by apply (Hu i j a b).
Qed.

(** Writing at [k] a row whose email no row other than [k] holds. *)
Lemma emails_unique_insert tbl k c :
  emails_unique tbl →
  (∀ j b, tbl !! j = Some b → c_email b = c_email c → j = k) →
  emails_unique (<[k := c]> tbl).
Proof.
  intros Hu Hfree i j a b Hi Hj Heq.
  apply lookup_insert_Some in Hi as [[<- <-]|[Hik Hi]];
    apply lookup_insert_Some in Hj as [[<- <-]|[Hjk Hj]].
  - done.
  - symmetry. by apply (Hfree j b).
  - by apply (Hfree i a).
  - by apply (Hu i j a b).
Qed.

(** The engine keeps the UNIQUE constraint whatever statement it runs. *)
Lemma run_emails_unique now s params db :
  emails_unique (contacts db) → emails_unique (contacts (run now s params db).2).
Proof.
  intros Hu. unfold run. destruct (negb _); [done|].
  destruct s as [what w ob| | |]; simpl; [done| | |].
  - destruct params as [|vn [|ve [|vp [|vc [|? ?]]]]]; simpl; try done.
    destruct (text_of vn) as [n|]; [|done]. destruct (text_of ve) as [e|]; [|done].
    destruct (email_in_use e None (contacts db)) eqn:Huse; [done|]. simpl.
    apply emails_unique_insert; [done|]. simpl. intros j b Hj He.
    rewrite email_in_use_false in Huse. by specialize (Huse j b Hj He).
  - destruct params as [|vn [|ve [|vp [|vc [|vk [|? ?]]]]]]; simpl; try done;
      destruct vk as [|k|]; simpl; try done.
    destruct (contacts db !! k) as [old|]; [|done].
    destruct (text_of vn) as [n|]; [|done]. destruct (text_of ve) as [e|]; [|done].
    destruct (email_in_use e (Some k) (contacts db)) eqn:Huse; [done|]. simpl.
    apply emails_unique_insert; [done|]. simpl. intros j b Hj He.
    rewrite email_in_use_false in Huse. specialize (Huse j b Hj He). congruence.
  - destruct params as [|vk [|? ?]]; simpl; try done;
      destruct vk as [|k|]; simpl; try done. by apply emails_unique_delete.
Qed.

Lemma hoare_ret {A} (P : world → Prop) (a : A) : hoare P (ret a) P.
Proof. by intros w. Qed.

Lemma hoare_raise {A} (P : world → Prop) e : hoare P (raise (A:=A) e) P.
Proof. by intros w. Qed.

Lemma hoare_lift {A} (P : world → Prop) (r : result A) : hoare P (lift r) P.
Proof. by intros w. Qed.

Lemma hoare_constraint (P : world → Prop) b : hoare P (constraint b) P.
Proof. intros w. unfold constraint. by destruct b. Qed.

Lemma hoare_bind {A B} (P Q : world → Prop) (m : M A) (k : A → M B) :
  hoare P m P → (∀ a, hoare P (k a) Q) → (∀ w, P w → Q w) → hoare P (bind m k) Q.
Proof.
  intros Hm Hk Hw w HP. unfold bind. specialize (Hm w HP).
  destruct (m w) as [[a|e] w']; simpl in *; [by apply Hk|by apply Hw].
Qed.

Lemma hoare_try {A} (P : world → Prop) (body handler : M A) :
  hoare P body P → hoare P handler P →
  hoare P (try_except_IntegrityError body handler) P.
Proof.
  intros Hb Hh w HP. unfold try_except_IntegrityError. specialize (Hb w HP).
  destruct (body w) as [[a|[]] w']; simpl in *; try done. by apply Hh.
Qed.

Create HintDb hoare.
#[local] Hint Resolve hoare_ret hoare_raise hoare_lift hoare_constraint : hoare.

Lemma hoare_execute s params : hoare connection_inv (execute s params) connection_inv.
Proof.
  intros w [Hd Hw]. unfold execute.
  pose proof (run_emails_unique (clock w) s params (working w) Hw) as Hrun.
  destruct (run _ _ _ _) as [r db']. by split.
Qed.

Lemma hoare_commit : hoare connection_inv commit connection_inv.
Proof. by intros w [Hd Hw]. Qed.

Lemma hoare_with_connection {A} (body : M A) :
  hoare connection_inv body connection_inv →
  hoare store_inv (with_connection body) store_inv.
Proof.
  intros Hb w Hd. unfold with_connection.
  match goal with |- context [body ?w0] => specialize (Hb w0 (conj Hd Hd)) end.
  destruct (body _) as [[a|e] w']; destruct Hb; done.
Qed.

#[local] Hint Resolve hoare_execute hoare_commit : hoare.

Ltac hoare_step :=
  first
    [ apply hoare_with_connection
    | apply hoare_try
    | apply hoare_bind; [| intros ? | done]
    | solve [eauto with hoare]
    | match goal with
      | |- hoare _ (match ?x with _ => _ end) _ => destruct x
      | |- hoare _ (if ?x then _ else _) _ => destruct x
      end ].

Lemma create_contact_store_inv contact :
  hoare store_inv (create_contact contact) store_inv.
Proof. unfold create_contact. repeat hoare_step. Qed.

Lemma update_contact_store_inv contact id :
  hoare store_inv (update_contact contact id) store_inv.
Proof. unfold update_contact. repeat hoare_step. Qed.

Lemma delete_contact_store_inv id :
  hoare store_inv (delete_contact id) store_inv.
Proof. unfold delete_contact. repeat hoare_step. Qed.

(** ** What the point statements do *)

Lemma execute_select_by_id what k w :
  execute (SELECT what by_id None) [INTEGER k] w =
  (Ok {| rows := project what match contacts (working w) !! k with
                              | Some c => [(k, c)]
                              | None => []
                              end;
         lastrowid := None |},
   logged w (working w) (SELECT what by_id None) [INTEGER k]).
Proof.
  unfold execute, run, run_select. simpl. by rewrite where_rows_by_id.
Qed.

Lemma delete_contact_absent id w :
  0 < id → contacts (disk w) !! id = None →
  delete_contact id w =
  (Raise not_found,
   {| clock := clock w; disk := disk w; working := disk w;
      journal := (journal w ++ [(SELECT ONE by_id None, [INTEGER id])])%list |}).
Proof.
  intros Hpos Hnone. unfold delete_contact, bind at 1.
  rewrite (proj2 (Z.ltb_lt 0 id) Hpos). simpl.
  unfold bind at 1, with_connection, bind. rewrite execute_select_by_id. simpl.
  by rewrite Hnone.
Qed.

Lemma delete_contact_present id c w :
  0 < id → contacts (disk w) !! id = Some c →
  delete_contact id w =
  (Ok tt,
   let db := {| contacts := delete id (contacts (disk w));
                sqlite_sequence := sqlite_sequence (disk w) |} in
   {| clock := clock w; disk := db; working := db;
      journal := (journal w ++ [(SELECT ONE by_id None, [INTEGER id]);
                                (DELETE, [INTEGER id])])%list |}).
Proof.
  intros Hpos Hsome. unfold delete_contact, bind at 1.
  rewrite (proj2 (Z.ltb_lt 0 id) Hpos). simpl.
  unfold bind at 1, with_connection, bind. rewrite execute_select_by_id. simpl.
  rewrite Hsome. simpl. by rewrite <-app_assoc.
Qed.

Lemma delete_contact_invalid id w :
  id ≤ 0 → delete_contact id w = (Raise RequestValidationError, w).
Proof.
  intros Hneg. unfold delete_contact, bind at 1.
  by rewrite (proj2 (Z.ltb_ge 0 id) Hneg).
Qed.

Lemma text_of_nullable o : text_of (nullable o) = o.
Proof. by destruct o. Qed.

Lemma optional_str_nullable o : optional_str (nullable o) = Ok o.
Proof. by destruct o. Qed.

Lemma row_to_contact_tuple_of k c :
  row_to_contact (Some (tuple_of (k, c))) =
  Ok {| base := {| name := c_name c; email := c_email c;
                   phone := c_phone c; company := c_company c |};
        id := k; created_at := c_created_at c |}.
Proof. unfold row_to_contact. simpl. by rewrite !optional_str_nullable. Qed.

Lemma execute_select_by_email what e w :
  execute (SELECT what by_email None) [TEXT e] w =
  (Ok {| rows := project what (where_rows by_email [TEXT e] (contacts (working w)));
         lastrowid := None |},
   logged w (working w) (SELECT what by_email None) [TEXT e]).
Proof. done. Qed.

Lemma execute_insert contact w :
  execute INSERT (body_params contact) w =
  if email_in_use (email contact) None (contacts (working w)) then
    (Raise IntegrityError, logged w (working w) INSERT (body_params contact))
  else
    let rowid := Z.max (sqlite_sequence (working w))
                       (max_rowid (contacts (working w))) + 1 in
    (Ok {| rows := []; lastrowid := Some rowid |},
     logged w {| contacts := <[rowid := cells_of contact (clock w)]>
                               (contacts (working w));
                 sqlite_sequence := rowid |}
            INSERT (body_params contact)).
Proof.
  unfold execute, run, body_params. simpl. rewrite !text_of_nullable.
  by destruct (email_in_use _ _ _).
Qed.

Lemma execute_update contact k old w :
  contacts (working w) !! k = Some old →
  execute UPDATE (body_params contact ++ [INTEGER k]) w =
  if email_in_use (email contact) (Some k) (contacts (working w)) then
    (Raise IntegrityError,
     logged w (working w) UPDATE (body_params contact ++ [INTEGER k]))
  else
    (Ok {| rows := []; lastrowid := None |},
     logged w {| contacts := <[k := cells_of contact (c_created_at old)]>
                               (contacts (working w));
                 sqlite_sequence := sqlite_sequence (working w) |}
            UPDATE (body_params contact ++ [INTEGER k])).
Proof.
  intros Hold. unfold execute, run, body_params. simpl. rewrite Hold.
  rewrite !text_of_nullable. by destruct (email_in_use _ _ _).
Qed.

Lemma create_contact_eq contact w :
  create_contact contact w =
  if email_in_use (email contact) None (contacts (disk w)) then
    (Raise conflict, closed w (disk w) [(INSERT, body_params contact)])
  else
    let rowid := Z.max (sqlite_sequence (disk w)) (max_rowid (contacts (disk w))) + 1 in
    (Ok {| base := contact; id := rowid; created_at := clock w |},
     closed w {| contacts := <[rowid := cells_of contact (clock w)]> (contacts (disk w));
                 sqlite_sequence := rowid |}
            [(INSERT, body_params contact); select_by_id rowid]).
Proof.
  unfold create_contact, with_connection, bind, try_except_IntegrityError, bind.
  fold (body_params contact). rewrite execute_insert. simpl.
  destruct (email_in_use _ _ _); [done|]. simpl.
  rewrite where_rows_by_id, lookup_insert_eq. simpl.
  rewrite !optional_str_nullable.
  unfold closed. simpl. rewrite <-app_assoc. by destruct contact.
Qed.

(** Lines 176-183: the write, the commit and the read-back. *)
Lemma update_contact_write contact k old w :
  contacts (working w) !! k = Some old →
  (execute UPDATE (body_params contact ++ [INTEGER k]) ;;
   commit ;;
   cur <- execute (SELECT STAR by_id None) [INTEGER k] ;;
   lift (row_to_contact (fetchone cur))) w =
  if email_in_use (email contact) (Some k) (contacts (working w)) then
    (Raise IntegrityError,
     logged w (working w) UPDATE (body_params contact ++ [INTEGER k]))
  else
    let db := {| contacts := <[k := cells_of contact (c_created_at old)]>
                               (contacts (working w));
                 sqlite_sequence := sqlite_sequence (working w) |} in
    (Ok {| base := contact; id := k; created_at := c_created_at old |},
     {| clock := clock w; disk := db; working := db;
        journal := (journal w ++ [update_with contact k; select_by_id k])%list |}).
Proof.
  intros Hold. unfold bind at 1. rewrite (execute_update _ _ old) by done.
  destruct (email_in_use _ _ _); [done|].
  unfold bind, commit. rewrite execute_select_by_id. simpl.
  rewrite lookup_insert_eq. simpl. rewrite !optional_str_nullable.
  unfold lift, logged. simpl. rewrite <-app_assoc. by destruct contact.
Qed.

Lemma update_contact_eq contact id w :
  update_contact contact id w =
  if 0 <? id then
    match contacts (disk w) !! id with
    | None => (Raise not_found, closed w (disk w) [select_by_id id])
    | Some old =>
        let changed := bool_decide (email contact ≠ c_email old) in
        let probe := if changed then [select_1_by_email (email contact)] else [] in
        if changed &&
           negb (bool_decide
                   (where_rows by_email [TEXT (email contact)] (contacts (disk w)) = []))
        then (Raise conflict, closed w (disk w) (select_by_id id :: probe))
        else if email_in_use (email contact) (Some id) (contacts (disk w)) then
          (Raise IntegrityError,
           closed w (disk w) (select_by_id id :: probe ++ [update_with contact id]))
        else
          (Ok {| base := contact; id := id; created_at := c_created_at old |},
           closed w {| contacts := <[id := cells_of contact (c_created_at old)]>
                                     (contacts (disk w));
                       sqlite_sequence := sqlite_sequence (disk w) |}
                  (select_by_id id :: probe ++ [update_with contact id; select_by_id id]))
    end
  else (Raise RequestValidationError, w).
Proof.
  unfold update_contact, bind at 1.
  destruct (0 <? id); [|done]. simpl.
  unfold with_connection, bind at 1. rewrite execute_select_by_id. simpl.
  destruct (contacts (disk w) !! id) as [old|] eqn:Hold; [|done]. simpl.
  unfold bind at 1. simpl. unfold bind at 1.
  assert (bool_decide (TEXT (email contact) ≠ TEXT (c_email old)) =
          bool_decide (email contact ≠ c_email old)) as ->.
  { apply bool_decide_ext. split; intros H ?; apply H; congruence. }
  fold (body_params contact).
  destruct (bool_decide (email contact ≠ c_email old)); simpl.
  - unfold bind at 1. rewrite execute_select_by_email. simpl.
    destruct (where_rows by_email _ _) as [|kv l] eqn:Hw; simpl.
    + rewrite (update_contact_write contact id old) by done. simpl.
      destruct (email_in_use _ _ _); unfold closed, logged; simpl;
        by rewrite <-!app_assoc.
    + unfold closed, logged. simpl. by rewrite <-!app_assoc.
  - rewrite (update_contact_write contact id old) by done. simpl.
    destruct (email_in_use _ _ _); unfold closed, logged; simpl;
      by rewrite <-?app_assoc.
Qed.

(** ** The list query *)

Lemma sql_eq_text a b : sql_eq (TEXT a) (TEXT b) = sql_bool (bool_decide (a = b)).
Proof.
  unfold sql_eq. f_equal. apply bool_decide_ext. split; congruence.
Qed.

Lemma truth_sql_bool b : truth (sql_bool b) = Some b.
Proof. by destruct b. Qed.

Lemma sql_eq_one : sql_eq (INTEGER 1) (INTEGER 1) = sql_bool true.
Proof. reflexivity. Qed.

Lemma row_passes_build_query company search extra kv :
  row_passes (build_query company search).1
             ((build_query company search).2 ++ extra) kv =
  selected company search kv.
Proof.
  unfold build_query, selected, company_matches, search_matches, row_passes.
  destruct (truthy company) as [f|], (truthy search) as [s|];
    cbn -[sql_eq sql_and sql_or sql_like lower like String.append];
    destruct (c_company kv.2) as [x|];
    cbn -[sql_eq sql_and sql_or sql_like lower like String.append];
    rewrite sql_eq_one, ?sql_eq_text; unfold sql_and, sql_or, sql_like;
    cbn -[sql_bool lower like String.append]; rewrite ?truth_sql_bool;
    repeat match goal with
           | |- context [bool_decide ?P] => destruct (bool_decide P)
           | |- context [like ?p ?t] => destruct (like p t)
           end; reflexivity.
Qed.

Lemma arity_build_query company search :
  arity (build_query company search).1 = length (build_query company search).2.
Proof.
  unfold build_query. by destruct (truthy company), (truthy search).
Qed.

Lemma where_rows_build_query company search extra tbl :
  where_rows (build_query company search).1
             ((build_query company search).2 ++ extra) tbl =
  List.filter (selected company search) (table_scan tbl).
Proof.
  unfold where_rows. apply filter_ext. intros kv. apply row_passes_build_query.
Qed.

Lemma rows_to_contacts_tuple_of (l : list (Z * cells)) :
  rows_to_contacts (tuple_of <$> l) = Ok (contact_of <$> l).
Proof.
  induction l as [|[k c] l IH]; [done|].
  cbn [fmap list_fmap rows_to_contacts]. rewrite row_to_contact_tuple_of, IH. done.
Qed.

Lemma fullmatch_true alternatives s :
  fullmatch alternatives s = true ↔ s ∈ alternatives.
Proof.
  unfold fullmatch. rewrite existsb_exists. split.
  - intros (x & Hin & Heq). apply String.eqb_eq in Heq as ->. by apply list_elem_of_In.
  - intros Hin. exists s. split; [by apply list_elem_of_In|]. apply String.eqb_refl.
Qed.

Lemma order_term_valid sort_by order :
  sort_by ∈ ["name"; "company"; "id"] → order ∈ ["asc"; "desc"] →
  is_Some (order_term sort_by (upper order)).
Proof.
  intros Hs Ho. repeat (apply elem_of_cons in Hs as [->|Hs]);
    [..|by apply not_elem_of_nil in Hs];
    (repeat (apply elem_of_cons in Ho as [->|Ho]);
      [..|by apply not_elem_of_nil in Ho]); by eexists.
Qed.

Lemma execute_count w q params tbl_rows :
  arity q = length params →
  where_rows q params (contacts (working w)) = tbl_rows →
  execute (SELECT COUNT_STAR q None) params w =
  (Ok {| rows := [[INTEGER (Z.of_nat (length tbl_rows))]]; lastrowid := None |},
   logged w (working w) (SELECT COUNT_STAR q None) params).
Proof.
  intros Har <-. unfold execute, run. cbn [bindings]. rewrite Har, Nat.eqb_refl. done.
Qed.

Lemma execute_page w q params l o c d tbl_rows :
  arity q = length params →
  where_rows q (params ++ [INTEGER l; INTEGER o]) (contacts (working w)) = tbl_rows →
  execute (SELECT STAR q (Some (c, d))) (params ++ [INTEGER l; INTEGER o]) w =
  (Ok {| rows := tuple_of <$> limit_offset l o (order_rows c d tbl_rows);
         lastrowid := None |},
   logged w (working w) (SELECT STAR q (Some (c, d))) (params ++ [INTEGER l; INTEGER o])).
Proof.
  intros Har <-. unfold execute, run, run_select. cbn [bindings].
  rewrite length_app, Har. cbn [length]. rewrite Nat.eqb_refl. cbn [negb].
  rewrite drop_app_length. done.
Qed.

Lemma get_contacts_eq company search limit offset sort_by order w :
  valid_list_request limit offset sort_by order →
  ∃ c d,
    order_term (default "id" sort_by) (upper (default "asc" order)) = Some (c, d) ∧
    get_contacts company search limit offset sort_by order w =
    let matching :=
      List.filter (selected company search) (table_scan (contacts (disk w))) in
    let q := build_query company search in
    let page := (q.2 ++ [INTEGER (default 10 limit); INTEGER (default 0 offset)])%list in
    (Ok {| data := contact_of <$>
                     limit_offset (default 10 limit) (default 0 offset)
                                  (order_rows c d matching);
           count := Z.of_nat (length matching);
           limit := default 10 limit;
           offset := default 0 offset |},
     closed w (disk w)
            [(SELECT COUNT_STAR q.1 None, q.2); (SELECT STAR q.1 (Some (c, d)), page)]).
Proof.
  intros ([Hl1 Hl2] & Ho & Hs & Hd).
  destruct (order_term_valid _ _ Hs Hd) as [[c d] Hterm]. exists c, d. split; [done|].
  unfold get_contacts.
  rewrite (proj2 (andb_true_iff _ _) (conj (proj2 (Z.leb_le _ _) Hl1) (proj2 (Z.leb_le _ _) Hl2))).
  rewrite (proj2 (Z.leb_le _ _) Ho).
  rewrite (proj2 (fullmatch_true _ _) Hs), (proj2 (fullmatch_true _ _) Hd).
  rewrite Hterm.
  pose proof (arity_build_query company search) as Har.
  pose proof (where_rows_build_query company search [] (contacts (disk w))) as Hcount.
  pose proof (where_rows_build_query company search
                [INTEGER (default 10 limit); INTEGER (default 0 offset)]
                (contacts (disk w))) as Hpage.
  rewrite app_nil_r in Hcount.
  destruct (build_query company search) as [q params]. cbn [fst snd] in *.
  unfold constraint, bind at 1. cbn [ret].
  unfold bind at 1. cbn [ret]. unfold bind at 1. cbn [ret]. unfold bind at 1. cbn [ret].
  unfold bind at 1, with_connection at 1, bind at 1.
  erewrite execute_count by (cbn; eauto). cbn [lift fetchone rows head item lookup].
  simpl.
  unfold bind at 1, with_connection at 1, bind at 1.
  erewrite execute_page by (cbn; eauto). cbn [lift fetchall rows].
  rewrite rows_to_contacts_tuple_of. unfold closed, logged. simpl.
  by rewrite <-app_assoc.
Qed.

(** ** LIKE and substrings *)


Lemma append_cons c s t : String c s +:+ t = String c (s +:+ t).
Proof. done. Qed.



Lemma lower_app s t : lower (s +:+ t) = lower s +:+ lower t.
Proof.
  induction s as [|c s IH]; [done|].
  rewrite !append_cons. cbn [lower]. by rewrite IH, append_cons.
Qed.









(** ** Reachable states *)

Lemma reachable_emails_unique w : reachable w → emails_unique (contacts (disk w)).
Proof.
  induction 1 as [now|w now _ IH|w contact _ IH|w contact id _ IH|w id _ IH].
  - apply emails_unique_empty.
  - done.
  - by apply create_contact_store_inv.
  - by apply update_contact_store_inv.
  - by apply delete_contact_store_inv.
Qed.

(** ** The claims *)

(** C1. Email uniqueness is an invariant of the contact store: if no two
    contacts share a byte-identical email before a create, an update or
    a delete, then none do after it, whether the operation succeeds or
    raises. *)
Theorem email_uniqueness_invariant w :
  emails_unique (contacts (disk w)) →
  (∀ contact, emails_unique (contacts (disk (create_contact contact w).2))) ∧
  (∀ contact id, emails_unique (contacts (disk (update_contact contact id w).2))) ∧
  (∀ id, emails_unique (contacts (disk (delete_contact id w).2))).
Proof.
  intros Hu. split; [|split]; intros.
  - by apply create_contact_store_inv.
  - by apply update_contact_store_inv.
  - by apply delete_contact_store_inv.
Qed.

Lemma two_contacts_unique : emails_unique (contacts two_contacts).
Proof.
  apply emails_unique_insert; [apply emails_unique_insert|].
  - apply emails_unique_empty.
  - intros j b Hj. by rewrite lookup_empty in Hj.
  - intros j b Hj He. apply lookup_insert_Some in Hj as [[<- <-]|[_ Hj]].
    + discriminate He.
    + by rewrite lookup_empty in Hj.
Defined.

Lemma email_uniqueness_invariant_witness :
  emails_unique
    (contacts (disk (update_contact ada 2 (at_rest "now" two_contacts)).2)).
Proof.
  apply (email_uniqueness_invariant (at_rest "now" two_contacts)).
  exact two_contacts_unique.
Defined.



Lemma valid_page_two : valid_list_request (Some 1) (Some 1) (Some "name") (Some "desc").
Proof.
  repeat split; simpl; try lia.
  - apply list_elem_of_In. simpl. tauto.
  - apply list_elem_of_In. simpl. tauto.
Defined.


(** C3. A list request with [limit] below 1 or above 50, a negative
    [offset], a [sort_by] other than name, company, id, or an [order]
    other than asc, desc is refused as an invalid parameter (422), and
    no statement reaches the storage engine. *)
Theorem list_rejects_invalid_parameters company search l o sort_by order w :
  default 10 l < 1 ∨ 50 < default 10 l ∨ default 0 o < 0 ∨
  default "id" sort_by ∉ ["name"; "company"; "id"] ∨
  default "asc" order ∉ ["asc"; "desc"] →
  ∃ e,
    get_contacts company search l o sort_by order w = (Raise e, w) ∧
    kind_of e = InvalidParameter ∧ status_code_of e = 422.
Proof.
  intros Hbad. exists RequestValidationError. split; [|done].
  unfold get_contacts.
  destruct ((1 <=? default 10 l) && (default 10 l <=? 50)) eqn:Hl; [|done].
  apply andb_true_iff in Hl as [Hl1 Hl2]. apply Z.leb_le in Hl1, Hl2.
  destruct (0 <=? default 0 o) eqn:Ho; [|done]. apply Z.leb_le in Ho.
  destruct (fullmatch _ (default "id" sort_by)) eqn:Hs; [|done].
  apply fullmatch_true in Hs.
  destruct (fullmatch _ (default "asc" order)) eqn:Hd; [|done].
  apply fullmatch_true in Hd.
  exfalso. destruct Hbad as [?|[?|[?|[?|?]]]]; try lia; done.
Qed.

Lemma list_rejects_invalid_parameters_witness :
  ∃ e,
    get_contacts None None (Some 51) None (Some "email") None
                 (at_rest "now" two_contacts) =
      (Raise e, at_rest "now" two_contacts) ∧
    kind_of e = InvalidParameter ∧ status_code_of e = 422.
Proof.
  apply (list_rejects_invalid_parameters None None (Some 51) None (Some "email") None).
  right. left. simpl. lia.
Defined.

(** C10. A list request whose [company] or [search] is the empty string
    behaves as the request with that filter omitted: same rows, same
    count, same statements. *)
Theorem empty_filter_is_omitted company search l o sort_by order w :
  get_contacts (Some "") search l o sort_by order w =
    get_contacts None search l o sort_by order w ∧
  get_contacts company (Some "") l o sort_by order w =
    get_contacts company None l o sort_by order w ∧
  (∀ kv, selected (Some "") search kv = selected None search kv) ∧
  (∀ kv, selected company (Some "") kv = selected company None kv).
Proof. done. Qed.







(** C5. A create whose email is byte-identical to the email of an
    existing contact raises the 409 conflict; the only statement sent to
    the engine is the INSERT itself, whose uniqueness violation is
    translated, and the store is as it was. *)
Theorem create_duplicate_email_conflict contact w k c :
  contacts (disk w) !! k = Some c → c_email c = email contact →
  ∃ e w',
    create_contact contact w = (Raise e, w') ∧
    kind_of e = Conflict ∧ status_code_of e = 409 ∧
    journal w' = (journal w ++ [(INSERT, body_params contact)])%list ∧
    (execute INSERT (body_params contact)
             {| clock := clock w; disk := disk w; working := disk w;
                journal := journal w |}).1 = Raise IntegrityError ∧
    disk w' = disk w.
Proof.
  intros Hk He.
  assert (email_in_use (email contact) None (contacts (disk w)) = true) as Huse.
  { apply email_in_use_true. by exists k, c. }
  exists conflict. eexists. rewrite create_contact_eq, Huse. split; [done|].
  repeat split. rewrite execute_insert. cbn [working]. by rewrite Huse.
Qed.

Lemma create_duplicate_email_conflict_witness :
  ∃ e w',
    create_contact ada (at_rest "now" two_contacts) = (Raise e, w') ∧
    kind_of e = Conflict ∧ status_code_of e = 409 ∧
    journal w' = (journal (at_rest "now" two_contacts) ++
                  [(INSERT, body_params ada)])%list ∧
    (execute INSERT (body_params ada)
             {| clock := "now"; disk := two_contacts; working := two_contacts;
                journal := [] |}).1 = Raise IntegrityError ∧
    disk w' = disk (at_rest "now" two_contacts).
Proof.
  apply (create_duplicate_email_conflict ada (at_rest "now" two_contacts) 1
           (cells_of ada "2024-01-01 00:00:00")); reflexivity.
Defined.

Lemma unchanged_email_free (tbl : gmap Z cells) k old e :
  emails_unique tbl → tbl !! k = Some old → e = c_email old →
  email_in_use e (Some k) tbl = false.
Proof.
  intros Hu Hold ->. apply email_in_use_false. intros j b Hj He.
  f_equal. by apply (Hu j k b old).
Qed.

(** C6. An update whose email is the one the contact already has
    succeeds: no conflict is raised against the contact itself, and the
    row carries the name, phone and company of the request. *)
Theorem update_same_email_succeeds contact id old w :
  0 < id → emails_unique (contacts (disk w)) →
  contacts (disk w) !! id = Some old → email contact = c_email old →
  ∃ w',
    update_contact contact id w =
      (Ok {| base := contact; id := id; created_at := c_created_at old |}, w') ∧
    contacts (disk w') !! id = Some (cells_of contact (c_created_at old)).
Proof.
  intros Hpos Hu Hold He. eexists. rewrite update_contact_eq.
  rewrite (proj2 (Z.ltb_lt 0 id) Hpos), Hold. cbn zeta.
  rewrite (bool_decide_eq_false_2 (email contact ≠ c_email old)) by (by intros H).
  cbn [andb]. rewrite (unchanged_email_free _ id old) by done.
  split; [done|]. cbn [closed disk contacts]. apply lookup_insert_eq.
Qed.

Lemma update_same_email_succeeds_witness :
  ∃ w',
    update_contact ada_moved 1 (at_rest "now" two_contacts) =
      (Ok {| base := ada_moved; id := 1; created_at := "2024-01-01 00:00:00" |}, w') ∧
    contacts (disk w') !! 1 = Some (cells_of ada_moved "2024-01-01 00:00:00").
Proof.
  apply (update_same_email_succeeds ada_moved 1 (cells_of ada "2024-01-01 00:00:00")
           (at_rest "now" two_contacts)).
  - lia.
  - exact two_contacts_unique.
  - reflexivity.
  - reflexivity.
Defined.

(** C7. An update that changes the email to one held by another contact
    raises the 409 conflict and leaves the whole store, the contact
    being updated included, as it was. *)
Theorem update_foreign_email_conflict contact id old j other w :
  0 < id → contacts (disk w) !! id = Some old → email contact ≠ c_email old →
  j ≠ id → contacts (disk w) !! j = Some other → c_email other = email contact →
  ∃ e w',
    update_contact contact id w = (Raise e, w') ∧
    kind_of e = Conflict ∧ status_code_of e = 409 ∧
    disk w' = disk w ∧
    contacts (disk w') !! id = Some old.
Proof.
  intros Hpos Hold Hne _ Hother He. exists conflict. eexists.
  rewrite update_contact_eq, (proj2 (Z.ltb_lt 0 id) Hpos), Hold. cbn zeta.
  rewrite (bool_decide_eq_true_2 (email contact ≠ c_email old)) by done.
  rewrite bool_decide_eq_false_2.
  - cbn [andb negb]. by repeat split.
  - intros Hnil. by apply (proj1 (where_rows_by_email_nil _ _) Hnil j other).
Qed.

Lemma update_foreign_email_conflict_witness :
  ∃ e w',
    update_contact ada_as_grace 1 (at_rest "now" two_contacts) = (Raise e, w') ∧
    kind_of e = Conflict ∧ status_code_of e = 409 ∧
    disk w' = disk (at_rest "now" two_contacts) ∧
    contacts (disk w') !! 1 = Some (cells_of ada "2024-01-01 00:00:00").
Proof.
  apply (update_foreign_email_conflict ada_as_grace 1
           (cells_of ada "2024-01-01 00:00:00") 2
           (cells_of grace "2024-01-02 00:00:00") (at_rest "now" two_contacts)).
  - lia.
  - reflexivity.
  - discriminate.
  - lia.
  - reflexivity.
  - reflexivity.
Defined.

(** C8. A successful update replaces the name, email, phone and company
    of the contact by those of the request, keeps its id and its
    [created_at], and changes no other row. *)
Theorem update_success_frame contact id w updated w' :
  update_contact contact id w = (Ok updated, w') →
  ∃ old,
    contacts (disk w) !! id = Some old ∧
    contacts (disk w') !! id = Some (cells_of contact (c_created_at old)) ∧
    updated = {| base := contact; id := id; created_at := c_created_at old |} ∧
    (∀ j, j ≠ id → contacts (disk w') !! j = contacts (disk w) !! j).
Proof.
  rewrite update_contact_eq. destruct (0 <? id); [|done].
  destruct (contacts (disk w) !! id) as [old|]; [|done]. cbn zeta.
  destruct (_ && _); [done|]. destruct (email_in_use _ _ _); [done|].
  intros [= <- <-]. exists old. cbn [closed disk contacts].
  repeat split; [apply lookup_insert_eq|]. intros j Hj. by apply lookup_insert_ne.
Qed.

Lemma update_success_frame_witness :
  ∃ old,
    contacts (disk (at_rest "now" two_contacts)) !! 1 = Some old ∧
    contacts (disk (update_contact ada_moved 1 (at_rest "now" two_contacts)).2) !! 1 =
      Some (cells_of ada_moved (c_created_at old)) ∧
    {| base := ada_moved; id := 1; created_at := "2024-01-01 00:00:00" |} =
      {| base := ada_moved; id := 1; created_at := c_created_at old |} ∧
    (∀ j, j ≠ 1 →
       contacts (disk (update_contact ada_moved 1 (at_rest "now" two_contacts)).2) !! j =
       contacts (disk (at_rest "now" two_contacts)) !! j).
Proof.
  apply (update_success_frame ada_moved 1 (at_rest "now" two_contacts)).
  vm_compute. reflexivity.
Defined.



(** * Further properties *)

(** ** Reading one contact *)

Lemma get_contact_eq id w :
  get_contact id w =
  if 0 <? id then
    match contacts (disk w) !! id with
    | Some c => (Ok (contact_of (id, c)), closed w (disk w) [select_by_id id])
    | None => (Raise not_found, closed w (disk w) [select_by_id id])
    end
  else (Raise RequestValidationError, w).
Proof.
  unfold get_contact, bind at 1. destruct (0 <? id); [|done]. simpl.
  unfold bind at 1, with_connection, bind. rewrite execute_select_by_id. simpl.
  destruct (contacts (disk w) !! id) as [c|]; simpl; [|done].
  by rewrite !optional_str_nullable.
Qed.



Lemma max_rowid_nonneg (tbl : gmap Z cells) : 0 ≤ max_rowid tbl.
Proof.
  unfold max_rowid. induction ((map_to_list tbl).*1) as [|x l IH]; simpl; lia.
Qed.

(** X2. A create whose email no stored contact has succeeds: the new
    contact carries the request body and the time of the engine, its id
    was free and is above every stored id, the table gains that one row
    and nothing else changes, and the counter is set to the new id. *)
Theorem create_fresh_email_succeeds contact w :
  (∀ k c, contacts (disk w) !! k = Some c → c_email c ≠ email contact) →
  ∃ created w',
    create_contact contact w = (Ok created, w') ∧
    base created = contact ∧ created_at created = clock w ∧
    0 < id created ∧
    contacts (disk w) !! id created = None ∧
    (∀ k c, contacts (disk w) !! k = Some c → k < id created) ∧
    contacts (disk w') =
      <[id created := cells_of contact (clock w)]> (contacts (disk w)) ∧
    sqlite_sequence (disk w') = id created.
Proof.
  intros Hfree.
  assert (email_in_use (email contact) None (contacts (disk w)) = false) as Huse.
  { apply email_in_use_false. intros k c Hk He. by destruct (Hfree k c Hk). }
  rewrite create_contact_eq, Huse. cbn zeta. eexists _, _. split; [done|].
  cbn [base created_at id closed disk contacts sqlite_sequence].
  pose proof (max_rowid_nonneg (contacts (disk w))).
  repeat split; try done.
  - lia.
  - apply fresh_rowid.
  - intros k c Hk. apply max_rowid_ge in Hk. lia.
Qed.

Lemma alan_is_new :
  ∀ k c, contacts (disk (at_rest "now" two_contacts)) !! k = Some c →
         c_email c ≠ email alan.
Proof.
  intros k c Hk. simpl in Hk.
  apply lookup_insert_Some in Hk as [[_ <-]|[_ Hk]];
    [|apply lookup_insert_Some in Hk as [[_ <-]|[_ Hk]]];
    [discriminate | discriminate | by rewrite lookup_empty in Hk].
Defined.

Lemma create_fresh_email_succeeds_witness :
  ∃ created w',
    create_contact alan (at_rest "now" two_contacts) = (Ok created, w') ∧
    base created = alan ∧ created_at created = clock (at_rest "now" two_contacts) ∧
    0 < id created ∧
    contacts (disk (at_rest "now" two_contacts)) !! id created = None ∧
    (∀ k c, contacts (disk (at_rest "now" two_contacts)) !! k = Some c →
            k < id created) ∧
    contacts (disk w') =
      <[id created := cells_of alan (clock (at_rest "now" two_contacts))]>
        (contacts (disk (at_rest "now" two_contacts))) ∧
    sqlite_sequence (disk w') = id created.
Proof.
  apply (create_fresh_email_succeeds alan (at_rest "now" two_contacts)).
  exact alan_is_new.
Defined.

Lemma create_contact_Ok_inv contact w created w' :
  create_contact contact w = (Ok created, w') →
  let rowid := Z.max (sqlite_sequence (disk w)) (max_rowid (contacts (disk w))) + 1 in
  email_in_use (email contact) None (contacts (disk w)) = false ∧
  created = {| base := contact; id := rowid; created_at := clock w |} ∧
  w' = closed w {| contacts := <[rowid := cells_of contact (clock w)]>
                                 (contacts (disk w));
                   sqlite_sequence := rowid |}
              [(INSERT, body_params contact); select_by_id rowid].
Proof.
  rewrite create_contact_eq. destruct (email_in_use _ _ _); [done|].
  cbn zeta. by intros [= <- <-].
Qed.

(** X3. What a create returns is what a read of the new id returns
    afterwards. *)
Theorem create_then_get contact w created w' :
  create_contact contact w = (Ok created, w') →
  ∃ w'', get_contact (id created) w' = (Ok created, w'') ∧ disk w'' = disk w'.
Proof.
  intros Hc. apply create_contact_Ok_inv in Hc as (_ & -> & ->). cbn [id].
  pose proof (max_rowid_nonneg (contacts (disk w))).
  rewrite get_contact_eq.
  rewrite (proj2 (Z.ltb_lt 0 _)) by lia.
  cbn [closed disk contacts]. rewrite lookup_insert_eq.
  eexists. split.
  - f_equal. unfold contact_of, cells_of. simpl. by destruct contact.
  - done.
Qed.

Lemma create_then_get_witness :
  ∃ w'',
    get_contact 3 (create_contact alan (at_rest "now" two_contacts)).2 =
      (Ok {| base := alan; id := 3; created_at := "now" |}, w'') ∧
    disk w'' = disk (create_contact alan (at_rest "now" two_contacts)).2.
Proof.
  apply (create_then_get alan (at_rest "now" two_contacts)
           {| base := alan; id := 3; created_at := "now" |}).
  vm_compute. reflexivity.
Defined.

(** X4. Once a contact is created, every further create with the
    byte-identical email is a 409, whatever its other fields, and
    leaves the store as the first create made it. *)
Theorem create_twice_conflict first second w created w' :
  create_contact first w = (Ok created, w') → email second = email first →
  ∃ w'', create_contact second w' = (Raise conflict, w'') ∧ disk w'' = disk w'.
Proof.
  intros Hc He. apply create_contact_Ok_inv in Hc as (_ & _ & ->).
  rewrite create_contact_eq.
  rewrite (proj2 (email_in_use_true _ _ _)).
  - by eexists.
  - eexists _, _. cbn [closed disk contacts]. rewrite lookup_insert_eq.
    by repeat split.
Qed.

Lemma create_twice_conflict_witness :
  ∃ w'',
    create_contact alan_again (create_contact alan (at_rest "now" two_contacts)).2 =
      (Raise conflict, w'') ∧
    disk w'' = disk (create_contact alan (at_rest "now" two_contacts)).2.
Proof.
  apply (create_twice_conflict alan alan_again (at_rest "now" two_contacts)
           {| base := alan; id := 3; created_at := "now" |}).
  - vm_compute. reflexivity.
  - reflexivity.
Defined.

Lemma update_contact_Ok_inv contact id w updated w' :
  update_contact contact id w = (Ok updated, w') →
  ∃ old sent,
    0 < id ∧ contacts (disk w) !! id = Some old ∧
    email_in_use (email contact) (Some id) (contacts (disk w)) = false ∧
    updated = {| base := contact; id := id; created_at := c_created_at old |} ∧
    w' = closed w {| contacts := <[id := cells_of contact (c_created_at old)]>
                                   (contacts (disk w));
                     sqlite_sequence := sqlite_sequence (disk w) |} sent.
Proof.
  rewrite update_contact_eq. destruct (0 <? id) eqn:Hpos; [|done].
  apply Z.ltb_lt in Hpos.
  destruct (contacts (disk w) !! id) as [old|]; [|done]. cbn zeta.
  destruct (_ && _); [done|]. destruct (email_in_use _ _ _); [done|].
  intros [= <- <-]. by eexists old, _.
Qed.

(** X5. What an update returns is what a read of the same id returns
    afterwards. *)
Theorem update_then_get contact id w updated w' :
  update_contact contact id w = (Ok updated, w') →
  ∃ w'', get_contact id w' = (Ok updated, w'') ∧ disk w'' = disk w'.
Proof.
  intros Hu. apply update_contact_Ok_inv in Hu as (old & sent & Hpos & _ & _ & -> & ->).
  rewrite get_contact_eq, (proj2 (Z.ltb_lt 0 id) Hpos).
  cbn [closed disk contacts]. rewrite lookup_insert_eq. eexists. split.
  - f_equal. unfold contact_of, cells_of. simpl. by destruct contact.
  - done.
Qed.

Lemma update_then_get_witness :
  ∃ w'',
    get_contact 1 (update_contact ada_moved 1 (at_rest "now" two_contacts)).2 =
      (Ok {| base := ada_moved; id := 1; created_at := "2024-01-01 00:00:00" |}, w'') ∧
    disk w'' = disk (update_contact ada_moved 1 (at_rest "now" two_contacts)).2.
Proof.
  apply (update_then_get ada_moved 1 (at_rest "now" two_contacts)).
  vm_compute. reflexivity.
Defined.

Lemma delete_contact_Ok_inv id w w' :
  delete_contact id w = (Ok tt, w') →
  ∃ c, 0 < id ∧ contacts (disk w) !! id = Some c ∧
       w' = closed w {| contacts := delete id (contacts (disk w));
                        sqlite_sequence := sqlite_sequence (disk w) |}
                   [(SELECT ONE by_id None, [INTEGER id]); (DELETE, [INTEGER id])].
Proof.
  intros Hd. destruct (Z_lt_le_dec 0 id) as [Hpos|Hneg].
  - destruct (contacts (disk w) !! id) as [c|] eqn:Hc.
    + rewrite (delete_contact_present id c) in Hd by done.
      injection Hd as <-. by exists c.
    + by rewrite delete_contact_absent in Hd.
  - by rewrite delete_contact_invalid in Hd.
Qed.

(** X6. A successful delete removes the row of that id and no other,
    keeps the AUTOINCREMENT counter, and a read of the id afterwards is
    a 404. *)
Theorem delete_removes_one_row id w w' :
  delete_contact id w = (Ok tt, w') →
  is_Some (contacts (disk w) !! id) ∧
  contacts (disk w') = delete id (contacts (disk w)) ∧
  (∀ j, j ≠ id → contacts (disk w') !! j = contacts (disk w) !! j) ∧
  sqlite_sequence (disk w') = sqlite_sequence (disk w) ∧
  ∃ w'', get_contact id w' = (Raise not_found, w'') ∧ disk w'' = disk w'.
Proof.
  intros Hd. apply delete_contact_Ok_inv in Hd as (c & Hpos & Hc & ->).
  cbn [closed disk contacts sqlite_sequence]. repeat split; try done.
  - intros j Hj. by apply lookup_delete_ne.
  - rewrite get_contact_eq, (proj2 (Z.ltb_lt 0 id) Hpos).
    cbn [closed disk contacts]. rewrite lookup_delete_eq. by eexists.
Qed.

Lemma delete_removes_one_row_witness :
  let w := at_rest "now" two_contacts in
  let w' := (delete_contact 1 w).2 in
  is_Some (contacts (disk w) !! 1) ∧
  contacts (disk w') = delete 1 (contacts (disk w)) ∧
  (∀ j, j ≠ 1 → contacts (disk w') !! j = contacts (disk w) !! j) ∧
  sqlite_sequence (disk w') = sqlite_sequence (disk w) ∧
  ∃ w'', get_contact 1 w' = (Raise not_found, w'') ∧ disk w'' = disk w'.
Proof.
  apply (delete_removes_one_row 1 (at_rest "now" two_contacts)).
  vm_compute. reflexivity.
Defined.



(** X8. The [Path(..., gt=0)] constraint: an id that is zero or negative
    is refused with the 422 by the read, the update and the delete
    alike, before any statement is sent. *)
Theorem nonpositive_id_rejected contact id w :
  id ≤ 0 →
  get_contact id w = (Raise RequestValidationError, w) ∧
  update_contact contact id w = (Raise RequestValidationError, w) ∧
  delete_contact id w = (Raise RequestValidationError, w) ∧
  kind_of RequestValidationError = InvalidParameter ∧
  status_code_of RequestValidationError = 422.
Proof.
  intros Hneg. rewrite get_contact_eq, update_contact_eq, delete_contact_invalid by done.
  by rewrite (proj2 (Z.ltb_ge 0 id) Hneg).
Qed.

Lemma nonpositive_id_rejected_witness :
  get_contact 0 (at_rest "now" two_contacts) =
    (Raise RequestValidationError, at_rest "now" two_contacts) ∧
  update_contact ada 0 (at_rest "now" two_contacts) =
    (Raise RequestValidationError, at_rest "now" two_contacts) ∧
  delete_contact 0 (at_rest "now" two_contacts) =
    (Raise RequestValidationError, at_rest "now" two_contacts) ∧
  kind_of RequestValidationError = InvalidParameter ∧
  status_code_of RequestValidationError = 422.
Proof. apply (nonpositive_id_rejected ada 0 (at_rest "now" two_contacts)). lia. Defined.

(** X9. No partial writes: whenever a create, an update or a delete
    raises, the committed database is the one it started from. *)
Theorem failure_leaves_store contact id w :
  (∀ e w', create_contact contact w = (Raise e, w') → disk w' = disk w) ∧
  (∀ e w', update_contact contact id w = (Raise e, w') → disk w' = disk w) ∧
  (∀ e w', delete_contact id w = (Raise e, w') → disk w' = disk w).
Proof.
  split; [|split]; intros e w'.
  - rewrite create_contact_eq. destruct (email_in_use _ _ _); [|done].
    by intros [= _ <-].
  - rewrite update_contact_eq. destruct (0 <? id); [|by intros [= _ <-]].
    destruct (contacts (disk w) !! id) as [old|]; [|by intros [= _ <-]]. cbn zeta.
    destruct (_ && _); [by intros [= _ <-]|].
    destruct (email_in_use _ _ _); [by intros [= _ <-]|done].
  - destruct (Z_lt_le_dec 0 id) as [Hpos|Hneg].
    + destruct (contacts (disk w) !! id) as [c|] eqn:Hc.
      * by rewrite (delete_contact_present id c) by done.
      * rewrite delete_contact_absent by done. by intros [= _ <-].
    + rewrite delete_contact_invalid by done. by intros [= _ <-].
Qed.

Lemma failure_leaves_store_witness :
  disk (create_contact ada (at_rest "now" two_contacts)).2 =
  disk (at_rest "now" two_contacts).
Proof.
  apply (proj1 (failure_leaves_store ada 1 (at_rest "now" two_contacts)) conflict).
  vm_compute. reflexivity.
Defined.

Lemma get_contacts_cases company search l o sort_by order w :
  valid_list_request l o sort_by order ∨
  get_contacts company search l o sort_by order w = (Raise RequestValidationError, w).
Proof.
  unfold get_contacts, valid_list_request.
  destruct ((1 <=? default 10 l) && (default 10 l <=? 50)) eqn:Hl; [|by right].
  apply andb_true_iff in Hl as [Hl1 Hl2]. apply Z.leb_le in Hl1, Hl2.
  destruct (0 <=? default 0 o) eqn:Ho; [|by right]. apply Z.leb_le in Ho.
  destruct (fullmatch _ (default "id" sort_by)) eqn:Hs; [|by right].
  apply fullmatch_true in Hs.
  destruct (fullmatch _ (default "asc" order)) eqn:Hd; [|by right].
  apply fullmatch_true in Hd. by left.
Qed.

(** X10. The two reads never write: whatever the request, valid or not,
    found or not, [get_contacts] and [get_contact] leave the committed
    database as it was, and every statement they send is a SELECT. *)
Theorem reads_leave_store company search l o sort_by order id w :
  (disk (get_contacts company search l o sort_by order w).2 = disk w ∧
   ∃ sent, journal (get_contacts company search l o sort_by order w).2 =
             (journal w ++ sent)%list ∧ Forall is_select sent) ∧
  (disk (get_contact id w).2 = disk w ∧
   ∃ sent, journal (get_contact id w).2 = (journal w ++ sent)%list ∧
           Forall is_select sent).
Proof.
  split.
  - destruct (get_contacts_cases company search l o sort_by order w) as [Hv| ->].
    + destruct (get_contacts_eq company search l o sort_by order w Hv)
        as (c & d & _ & ->).
      cbn [snd closed disk journal]. split; [done|]. eexists. split; [done|].
      by repeat constructor.
    + split; [done|]. exists []. by rewrite app_nil_r.
  - rewrite get_contact_eq. destruct (0 <? id).
    + destruct (contacts (disk w) !! id); cbn [snd closed disk journal];
        (split; [done|]; eexists; split; [done|]; by repeat constructor).
    + split; [done|]. exists []. by rewrite app_nil_r.
Qed.


Lemma where_rows_by_email_in_use (tbl : gmap Z cells) e :
  bool_decide (where_rows by_email [TEXT e] tbl = []) = negb (email_in_use e None tbl).
Proof.
  destruct (email_in_use e None tbl) eqn:Huse; simpl.
  - apply bool_decide_eq_false. rewrite where_rows_by_email_nil.
    apply email_in_use_true in Huse as (k & c & Hk & He & _).
    intros Hall. by apply (Hall k c).
  - apply bool_decide_eq_true. rewrite where_rows_by_email_nil.
    rewrite email_in_use_false in Huse. intros k c Hk He.
    by specialize (Huse k c Hk He).
Qed.



(** X12. On a table that satisfies its UNIQUE constraint, an update of
    an existing contact succeeds exactly when no other contact holds
    the email of the request. *)
Theorem update_succeeds_iff contact id old w :
  0 < id → emails_unique (contacts (disk w)) →
  contacts (disk w) !! id = Some old →
  (∃ updated w', update_contact contact id w = (Ok updated, w')) ↔
  (∀ j b, contacts (disk w) !! j = Some b → c_email b = email contact → j = id).
Proof.
  intros Hpos Hu Hold. split.
  - intros (updated & w' & Hup).
    apply update_contact_Ok_inv in Hup as (_ & _ & _ & _ & Huse & _).
    rewrite email_in_use_false in Huse. intros j b Hj He.
    by injection (Huse j b Hj He).
  - intros Hfree. rewrite update_contact_eq, (proj2 (Z.ltb_lt 0 id) Hpos), Hold.
    cbn zeta. rewrite where_rows_by_email_in_use, negb_involutive.
    assert (email_in_use (email contact) (Some id) (contacts (disk w)) = false) as ->.
    { apply email_in_use_false. intros j b Hj He. f_equal. by apply (Hfree j b). }
    case_bool_decide as Hch; cbn [andb]; [|by eexists _, _].
    destruct (email_in_use _ None _) eqn:Huse; [|by eexists _, _].
    apply email_in_use_true in Huse as (j & b & Hj & He & _).
    pose proof (Hfree j b Hj He) as ->. congruence.
Qed.

Lemma update_succeeds_iff_witness :
  (∃ updated w',
     update_contact ada_as_grace 1 (at_rest "now" two_contacts) = (Ok updated, w')) ↔
  (∀ j b, contacts (disk (at_rest "now" two_contacts)) !! j = Some b →
          c_email b = email ada_as_grace → j = 1).
Proof.
  apply (update_succeeds_iff ada_as_grace 1 (cells_of ada "2024-01-01 00:00:00")
           (at_rest "now" two_contacts)).
  - lia.
  - exact two_contacts_unique.
  - reflexivity.
Defined.

Lemma rowids_bounded_insert_new (db : database) c :
  rowids_bounded db →
  let rowid := Z.max (sqlite_sequence db) (max_rowid (contacts db)) + 1 in
  rowids_bounded {| contacts := <[rowid := c]> (contacts db);
                    sqlite_sequence := rowid |}.
Proof.
  intros [Hseq Hb] rowid. pose proof (max_rowid_nonneg (contacts db)).
  split; cbn [contacts sqlite_sequence]; [unfold rowid; lia|].
  intros k c' Hk. apply lookup_insert_Some in Hk as [[<- _]|[_ Hk]].
  - unfold rowid. lia.
  - destruct (Hb k c' Hk). unfold rowid. lia.
Qed.

Lemma create_contact_rowids contact w :
  rowids_bounded (disk w) →
  rowids_bounded (disk (create_contact contact w).2) ∧
  sqlite_sequence (disk w) ≤ sqlite_sequence (disk (create_contact contact w).2).
Proof.
  intros Hb. rewrite create_contact_eq.
  destruct (email_in_use _ _ _); [done|]. cbn [snd closed disk sqlite_sequence].
  split; [by apply rowids_bounded_insert_new|lia].
Qed.

Lemma update_contact_rowids contact id w :
  rowids_bounded (disk w) →
  rowids_bounded (disk (update_contact contact id w).2) ∧
  sqlite_sequence (disk (update_contact contact id w).2) = sqlite_sequence (disk w).
Proof.
  intros Hb. rewrite update_contact_eq. destruct (0 <? id); [|done].
  destruct (contacts (disk w) !! id) as [old|] eqn:Hold; [|done]. cbn zeta.
  destruct (_ && _); [done|]. destruct (email_in_use _ _ _); [done|].
  cbn [snd closed disk sqlite_sequence]. split; [|done].
  destruct Hb as [Hseq Hb]. split; [done|].
  intros k c. cbn [contacts sqlite_sequence]. intros Hk.
  apply lookup_insert_Some in Hk as [[<- _]|[_ Hk]]; by eapply Hb.
Qed.

Lemma delete_contact_rowids id w :
  rowids_bounded (disk w) →
  rowids_bounded (disk (delete_contact id w).2) ∧
  sqlite_sequence (disk (delete_contact id w).2) = sqlite_sequence (disk w).
Proof.
  intros Hb. destruct (Z_lt_le_dec 0 id) as [Hpos|Hneg].
  - destruct (contacts (disk w) !! id) as [c|] eqn:Hc.
    + rewrite (delete_contact_present id c) by done.
      cbn [snd disk sqlite_sequence]. split; [|done].
      destruct Hb as [Hseq Hb]. split; [done|].
      intros k c'. cbn [contacts sqlite_sequence]. intros Hk.
      apply lookup_delete_Some in Hk as [_ Hk]. by eapply Hb.
    + by rewrite delete_contact_absent by done.
  - by rewrite delete_contact_invalid by done.
Qed.

(** X13. The AUTOINCREMENT discipline is kept by every write: if the
    counter is not negative and all stored ids are positive and at most
    the counter before a create, an update or a delete, the same holds
    afterwards, and the counter never goes down. *)
Theorem rowids_bounded_invariant w :
  rowids_bounded (disk w) →
  (∀ contact,
     rowids_bounded (disk (create_contact contact w).2) ∧
     sqlite_sequence (disk w) ≤ sqlite_sequence (disk (create_contact contact w).2)) ∧
  (∀ contact id,
     rowids_bounded (disk (update_contact contact id w).2) ∧
     sqlite_sequence (disk (update_contact contact id w).2) = sqlite_sequence (disk w)) ∧
  (∀ id,
     rowids_bounded (disk (delete_contact id w).2) ∧
     sqlite_sequence (disk (delete_contact id w).2) = sqlite_sequence (disk w)).
Proof.
  intros Hb. split; [|split]; intros.
  - by apply create_contact_rowids.
  - by apply update_contact_rowids.
  - by apply delete_contact_rowids.
Qed.

Lemma two_contacts_bounded : rowids_bounded two_contacts.
Proof.
  split; [cbn; lia|].
  intros k c Hk. unfold two_contacts in *. cbn [contacts sqlite_sequence] in *.
  apply lookup_insert_Some in Hk as [[<- _]|[_ Hk]]; [lia|].
  apply lookup_insert_Some in Hk as [[<- _]|[_ Hk]]; [lia|].
  by rewrite lookup_empty in Hk.
Defined.

Lemma rowids_bounded_invariant_witness :
  rowids_bounded (disk (create_contact alan (at_rest "now" two_contacts)).2) ∧
  sqlite_sequence (disk (at_rest "now" two_contacts)) ≤
  sqlite_sequence (disk (create_contact alan (at_rest "now" two_contacts)).2).
Proof.
  apply (proj1 (rowids_bounded_invariant (at_rest "now" two_contacts)
                  two_contacts_bounded)).
Defined.

Lemma max_rowid_le (tbl : gmap Z cells) n :
  0 ≤ n → (∀ k c, tbl !! k = Some c → k ≤ n) → max_rowid tbl ≤ n.
Proof.
  intros Hn Hall. unfold max_rowid.
  assert (∀ k, k ∈ (map_to_list tbl).*1 → k ≤ n) as Hin.
  { intros k Hk. apply list_elem_of_fmap in Hk as ([k' c] & -> & Hk).
    apply elem_of_map_to_list in Hk. by apply (Hall k' c). }
  induction ((map_to_list tbl).*1) as [|x l IH]; simpl; [done|].
  apply Z.max_lub.
  - apply Hin. by left.
  - apply IH. intros k Hk. apply Hin. by right.
Qed.

(** X14. Under that discipline a successful create gives the new
    contact the counter plus one, an id above every id stored, and
    moves the counter to it; so the first contact of the database that
    [init_db] makes gets id 1. *)
Theorem create_assigns_next_id contact w created w' :
  rowids_bounded (disk w) →
  create_contact contact w = (Ok created, w') →
  id created = sqlite_sequence (disk w) + 1 ∧
  sqlite_sequence (disk w') = id created ∧
  (∀ k c, contacts (disk w) !! k = Some c → k < id created) ∧
  (disk w = init_db → id created = 1).
Proof.
  intros [Hseq Hb] Hc. apply create_contact_Ok_inv in Hc as (_ & -> & ->).
  cbn [id closed disk sqlite_sequence].
  assert (max_rowid (contacts (disk w)) ≤ sqlite_sequence (disk w)) as Hmax.
  { apply max_rowid_le; [done|]. intros k c Hk. by destruct (Hb k c Hk). }
  repeat split; try lia.
  - intros k c Hk. destruct (Hb k c Hk). lia.
  - intros Hinit. rewrite Hinit in *. cbn [init_db sqlite_sequence] in *. lia.
Qed.

Lemma init_db_bounded : rowids_bounded init_db.
Proof.
  split; [done|]. intros k c Hk. unfold init_db in Hk. cbn [contacts] in Hk.
  by rewrite lookup_empty in Hk.
Defined.

Lemma create_assigns_next_id_witness :
  let created := {| base := ada; id := 1; created_at := "now" |} in
  let w := at_rest "now" init_db in
  id created = sqlite_sequence (disk w) + 1 ∧
  sqlite_sequence (disk (create_contact ada w).2) = id created ∧
  (∀ k c, contacts (disk w) !! k = Some c → k < id created) ∧
  (disk w = init_db → id created = 1).
Proof.
  apply (create_assigns_next_id ada (at_rest "now" init_db)
           {| base := ada; id := 1; created_at := "now" |}
           (create_contact ada (at_rest "now" init_db)).2).
  - exact init_db_bounded.
  - vm_compute. reflexivity.
Defined.

Lemma handlers_close_connection w :
  working w = disk w →
  (∀ contact, working (create_contact contact w).2 = disk (create_contact contact w).2) ∧
  (∀ contact id,
     working (update_contact contact id w).2 = disk (update_contact contact id w).2) ∧
  (∀ id, working (delete_contact id w).2 = disk (delete_contact id w).2).
Proof.
  intros Hw. split; [|split].
  - intros contact. rewrite create_contact_eq. by destruct (email_in_use _ _ _).
  - intros contact id. rewrite update_contact_eq. destruct (0 <? id); [|done].
    destruct (contacts (disk w) !! id) as [old|]; [|done]. cbn zeta.
    destruct (_ && _); [done|]. by destruct (email_in_use _ _ _).
  - intros id. destruct (Z_lt_le_dec 0 id) as [Hpos|Hneg].
    + destruct (contacts (disk w) !! id) as [c|] eqn:Hc.
      * by rewrite (delete_contact_present id c) by done.
      * by rewrite delete_contact_absent by done.
    + by rewrite delete_contact_invalid by done.
Qed.

(** X15. Every state that a service started by [init_db] can reach
    between two requests keeps the emails unique and the ids positive
    and below the counter, and has nothing uncommitted: the working
    table of the last connection is the committed one. *)
Theorem reachable_state_invariants w :
  reachable w →
  emails_unique (contacts (disk w)) ∧ rowids_bounded (disk w) ∧ working w = disk w.
Proof.
  intros Hr. split; [by apply reachable_emails_unique|].
  induction Hr as [now|w now _ IH|w contact _ IH|w contact id _ IH|w id _ IH].
  - split; [apply init_db_bounded|done].
  - done.
  - destruct IH as [Hb Hw]. split.
    + by apply create_contact_rowids.
    + by apply handlers_close_connection.
  - destruct IH as [Hb Hw]. split.
    + by apply update_contact_rowids.
    + by apply handlers_close_connection.
  - destruct IH as [Hb Hw]. split.
    + by apply delete_contact_rowids.
    + by apply handlers_close_connection.
Qed.

Lemma reachable_state_invariants_witness :
  let w := (create_contact ada (at_rest "now" init_db)).2 in
  emails_unique (contacts (disk w)) ∧ rowids_bounded (disk w) ∧ working w = disk w.
Proof.
  apply (reachable_state_invariants (create_contact ada (at_rest "now" init_db)).2).
  apply reachable_create, reachable_init.
Defined.

(** ** Order of the listing *)

From Stdlib Require Import Sorted.

Lemma string_leb_trans (s1 s2 s3 : string) :
  String.leb s1 s2 = true → String.leb s2 s3 = true → String.leb s1 s3 = true.
Proof.
  unfold String.leb. revert s2 s3.
  induction s1 as [|a s1 IH]; intros [|b s2] [|c s3]; simpl; try done.
  unfold Ascii.compare.
  destruct (N.compare_spec (N_of_ascii a) (N_of_ascii b)) as [Hab|Hab|Hab];
    destruct (N.compare_spec (N_of_ascii b) (N_of_ascii c)) as [Hbc|Hbc|Hbc];
    destruct (N.compare_spec (N_of_ascii a) (N_of_ascii c)) as [Hac|Hac|Hac];
    try done; try lia.
  apply IH.
Qed.

Lemma sql_le_trans a b c :
  sql_le a b = true → sql_le b c = true → sql_le a c = true.
Proof.
  destruct a as [|x|s], b as [|y|t], c as [|z|u]; simpl; try done.
  - intros H1 H2. apply Z.leb_le in H1, H2. apply Z.leb_le. lia.
  - apply string_leb_trans.
Qed.

Lemma sql_le_total a b : sql_le a b = false → sql_le b a = true.
Proof.
  destruct a as [|x|s], b as [|y|t]; simpl; try done.
  - intros H. apply Z.leb_gt in H. apply Z.leb_le. lia.
  - intros H. by destruct (String.leb_total s t) as [H'|H']; [congruence|].
Qed.

Section sorted.
Context {A : Type} (le : A → A → bool).
Hypothesis le_total : ∀ x y, le x y = false → le y x = true.
Hypothesis le_trans : ∀ x y z, le x y = true → le y z = true → le x z = true.

Lemma insert_by_sorted x (l : list A) :
  StronglySorted (λ a b, le a b = true) l →
  StronglySorted (λ a b, le a b = true) (insert_by le x l).
Proof.
  induction 1 as [|y l Hs IH Hall]; simpl; [by repeat constructor|].
  destruct (le x y) eqn:Hxy.
  - constructor; [by constructor|]. constructor; [done|].
    eapply Forall_impl; [exact Hall|]. intros z Hz. by eapply le_trans.
  - constructor; [done|].
    rewrite (insert_by_Permutation le x l). constructor; [by apply le_total|done].
Qed.

Lemma sort_by_sorted (l : list A) :
  StronglySorted (λ a b, le a b = true) (sort_by le l).
Proof.
  induction l as [|x l IH]; [constructor|]. by apply insert_by_sorted.
Qed.
End sorted.

Lemma StronglySorted_sublist {A} (R : relation A) (l k : list A) :
  l `sublist_of` k → StronglySorted R k → StronglySorted R l.
Proof.
  induction 1 as [|x l k Hsub IH|x l k Hsub IH]; intros Hk; [done| |].
  - apply StronglySorted_inv in Hk as [Hk Hall]. constructor; [by apply IH|].
    rewrite Forall_forall in Hall. apply Forall_forall. intros y Hy.
    apply Hall. by apply (sublist_subseteq _ _ Hsub).
  - apply StronglySorted_inv in Hk as [Hk _]. by apply IH.
Qed.

Lemma StronglySorted_fmap_impl {A B} (f : A → B) (R1 : relation A) (R2 : relation B)
    (l : list A) :
  (∀ x y, R1 x y → R2 (f x) (f y)) →
  StronglySorted R1 l → StronglySorted R2 (f <$> l).
Proof.
  intros Himpl. induction 1 as [|x l _ IH Hall]; simpl; constructor; [done|].
  apply Forall_fmap. eapply Forall_impl; [exact Hall|]. intros y. apply Himpl.
Qed.

Lemma contact_key_contact_of c kv : contact_key c (contact_of kv) = column_value c kv.
Proof. by destruct c. Qed.

Lemma order_rows_sorted c d (l : list (Z * cells)) :
  StronglySorted (in_order c d) (contact_of <$> order_rows c d l).
Proof.
  unfold in_order, order_rows. destruct d.
  - eapply StronglySorted_fmap_impl; [|apply sort_by_sorted].
    + intros x y. by rewrite !contact_key_contact_of.
    + intros x y. apply sql_le_total.
    + intros x y z. apply sql_le_trans.
  - eapply StronglySorted_fmap_impl; [|apply sort_by_sorted].
    + intros x y. by rewrite !contact_key_contact_of.
    + intros x y. apply sql_le_total.
    + intros x y z H1 H2. by apply (sql_le_trans _ _ _ H2 H1).
Qed.

Lemma order_rows_Permutation c d (l : list (Z * cells)) : order_rows c d l ≡ₚ l.
Proof. unfold order_rows. destruct d; apply sort_by_Permutation. Qed.

Lemma data_is_window (l o : Z) (rows : list (Z * cells)) :
  0 ≤ l →
  contact_of <$> limit_offset l o rows =
  take (Z.to_nat l) (drop (Z.to_nat o) (contact_of <$> rows)).
Proof.
  intros Hl. unfold limit_offset. rewrite (proj2 (Z.ltb_ge l 0) Hl).
  by rewrite fmap_take, fmap_drop.
Qed.



(** X17. The size of a page: [data] holds the smaller of [limit] and of
    what is left of the [count] matching contacts after [offset], so it
    is empty from [offset = count] on. *)
Theorem list_page_length company search l o sort_by order w response w' :
  valid_list_request l o sort_by order →
  get_contacts company search l o sort_by order w = (Ok response, w') →
  Z.of_nat (length (data response)) =
    Z.min (limit response) (Z.max 0 (count response - offset response)).
Proof.
  intros Hv.
  destruct (get_contacts_eq company search l o sort_by order w Hv)
    as (c & d & _ & ->).
  intros [= <- _]. cbn [data count limit offset].
  destruct Hv as ([? ?] & ? & _).
  rewrite data_is_window by lia.
  rewrite length_take, length_drop, length_fmap.
  rewrite order_rows_Permutation. lia.
Qed.

Lemma list_page_length_witness :
  let response :=
    {| data := []; count := 1; limit := 1; offset := 1 |} in
  Z.of_nat (length (data response)) =
    Z.min (limit response) (Z.max 0 (count response - offset response)).
Proof.
  apply (list_page_length (Some "acme") None (Some 1) (Some 1)
           (Some "name") (Some "desc") (at_rest "now" two_contacts)
           {| data := []; count := 1; limit := 1; offset := 1 |}
           (get_contacts (Some "acme") None (Some 1) (Some 1) (Some "name")
                         (Some "desc") (at_rest "now" two_contacts)).2).
  - exact valid_page_two.
  - vm_compute. reflexivity.
Defined.





(** X19. A page is in the order asked for: for the column and direction
    that [sort_by] and [order] name, each contact of [data] comes no
    later than those after it, NULL first and text by its bytes when
    ascending and the reverse when descending. *)
Theorem list_data_sorted company search l o sort_by order w c d response w' :
  valid_list_request l o sort_by order →
  order_term (default "id" sort_by) (upper (default "asc" order)) = Some (c, d) →
  get_contacts company search l o sort_by order w = (Ok response, w') →
  StronglySorted (in_order c d) (data response).
Proof.
  intros Hv Hterm.
  destruct (get_contacts_eq company search l o sort_by order w Hv)
    as (c' & d' & Hterm' & ->).
  rewrite Hterm in Hterm'. injection Hterm' as <- <-.
  intros [= <- _]. cbn [data].
  destruct Hv as ([? ?] & ? & _). rewrite data_is_window by lia.
  eapply StronglySorted_sublist; [apply sublist_take|].
  eapply StronglySorted_sublist; [apply sublist_drop|].
  apply order_rows_sorted.
Qed.

Lemma list_data_sorted_witness :
  StronglySorted (in_order NAME DESC)
    [ {| base := grace; id := 2; created_at := "2024-01-02 00:00:00" |};
      {| base := ada; id := 1; created_at := "2024-01-01 00:00:00" |} ].
Proof.
  apply (list_data_sorted None None None None (Some "name") (Some "desc")
           (at_rest "now" two_contacts) NAME DESC
           {| data := [ {| base := grace; id := 2;
                           created_at := "2024-01-02 00:00:00" |};
                        {| base := ada; id := 1;
                           created_at := "2024-01-01 00:00:00" |} ];
              count := 2; limit := 10; offset := 0 |}
           (get_contacts None None None None (Some "name") (Some "desc")
                         (at_rest "now" two_contacts)).2).
  - repeat split; simpl; try lia; apply list_elem_of_In; simpl; tauto.
  - reflexivity.
  - vm_compute. reflexivity.
Defined.

(** ** Filters that select the same rows *)

Lemma get_contacts_response_ext company1 search1 company2 search2 l o sort_by order w :
  (∀ kv, selected company1 search1 kv = selected company2 search2 kv) →
  (get_contacts company1 search1 l o sort_by order w).1 =
  (get_contacts company2 search2 l o sort_by order w).1.
Proof.
  intros Hsel.
  destruct (get_contacts_cases company1 search1 l o sort_by order w) as [Hv|H1].
  - destruct (get_contacts_eq company1 search1 l o sort_by order w Hv)
      as (c & d & Hterm & ->).
    destruct (get_contacts_eq company2 search2 l o sort_by order w Hv)
      as (c' & d' & Hterm' & ->).
    rewrite Hterm in Hterm'. injection Hterm' as <- <-. cbn [fst].
    by rewrite (filter_ext _ _ Hsel).
  - rewrite H1.
    destruct (get_contacts_cases company2 search2 l o sort_by order w) as [Hv|H2].
    + destruct (get_contacts_eq company1 search1 l o sort_by order w Hv)
        as (c & d & _ & Heq). by rewrite Heq in H1.
    + by rewrite H2.
Qed.

Lemma lower_upper_ascii c : lower_ascii (upper_ascii c) = lower_ascii c.
Proof. by destruct c as [[] [] [] [] [] [] [] []]. Qed.

Lemma lower_upper s : lower (upper s) = lower s.
Proof. induction s as [|c s IH]; simpl; [done|]. by rewrite lower_upper_ascii, IH. Qed.

Lemma truthy_upper o : truthy (upper <$> o) = upper <$> truthy o.
Proof. by destruct o as [[|c s]|]. Qed.

Lemma selected_upper company search kv :
  selected (upper <$> company) (upper <$> search) kv = selected company search kv.
Proof.
  unfold selected, company_matches, search_matches. rewrite !truthy_upper.
  f_equal.
  - destruct (truthy company) as [f|]; [|done]. cbn [fmap option_fmap option_map].
    by rewrite lower_upper.
  - destruct (truthy search) as [s|]; [|done]. cbn [fmap option_fmap option_map].
    cbn zeta. by rewrite !lower_app, lower_upper.
Qed.

(** X20. The filters ignore the ASCII case of what the caller sends: a
    request with [company] and [search] in capitals gets the response
    of the request as given. *)
Theorem list_filters_ignore_case company search l o sort_by order w :
  (get_contacts (upper <$> company) (upper <$> search) l o sort_by order w).1 =
  (get_contacts company search l o sort_by order w).1.
Proof. apply get_contacts_response_ext. intros kv. apply selected_upper. Qed.






